(** * Rankify metrics engine: a shallow embedding of [rankify/metrics/metrics.py]

    The development follows the layout of the Python module:
    [normalize_answer], the token-overlap scorers ([ExactMatch], [F1Score],
    [PrecisionScore], [RecallScore], [ContainsMatch]), [BLEUScore] and the
    [Metrics] facade.

    Modelling conventions.
    - A Python [str] is a [list ascii]; a character is read as the code point
      U+0000..U+00FF with that number.  On this range [lower], [is_space] and
      [is_word] below are the tables of [str.lower], [str.isspace] and the
      regular-expression class [\w].
    - A Python [int] is a [Z].
    - A Python [float] is idealised as an exact rational ([Q]); the only
      transcendental step, [math.exp]/[math.log] in BLEU, lives in [R].
    - An exception is a value of [exn]; code that can raise returns
      [result A].
    - A [dict] or [collections.Counter] is a [gmap]. *)

From Stdlib Require Import ZArith QArith Qminmax Ascii String List Bool Lia Lra.
From Stdlib Require Import Reals Qreals.
From Stdlib Require Import DecimalString DecimalZ DecimalPos.
From Stdlib Require Lqa.
From stdpp Require Import gmap strings list fin_maps.

Local Open Scope Z_scope.

(** ** Exceptions *)

Inductive exn : Type :=
| ZeroDivisionError
| ValueError
| IndexError.

Inductive result (A : Type) : Type :=
| Ok (a : A)
| Raise (e : exn).
Arguments Ok {A} a.
Arguments Raise {A} e.

Definition bind {A B : Type} (r : result A) (k : A -> result B) : result B :=
  match r with
  | Ok a => k a
  | Raise e => Raise e
  end.

Notation "'let*' x ':=' r 'in' k" := (bind r (fun x => k))
  (at level 10, x name, r at level 100, k at level 200).

(** A list comprehension whose element expression can raise: elements are
    evaluated left to right and the first exception ends the evaluation. *)
Fixpoint map_result {A B : Type} (f : A -> result B) (l : list A) : result (list B) :=
  match l with
  | [] => Ok []
  | x :: rest =>
      let* y := f x in
      let* ys := map_result f rest in
      Ok (y :: ys)
  end.

Definition is_ok {A : Type} (r : result A) : bool :=
  match r with Ok _ => true | Raise _ => false end.

(** ** Strings *)

Definition str : Type := list ascii.

Definition s (x : string) : str := list_ascii_of_string x.

Definition code (c : ascii) : N := N_of_ascii c.

Definition in_range (lo hi : N) (c : ascii) : bool :=
  ((lo <=? code c) && (code c <=? hi))%N.

(** [str.lower] on U+0000..U+00FF: A-Z and the Latin-1 capitals move up by 32. *)
Definition lower_char (c : ascii) : ascii :=
  if in_range 65 90 c || (in_range 192 222 c && negb (code c =? 215)%N)
  then ascii_of_N (code c + 32)
  else c.

Definition lower (text : str) : str := List.map lower_char text.

(** [str.isspace] on U+0000..U+00FF. *)
Definition is_space (c : ascii) : bool :=
  in_range 9 13 c || in_range 28 32 c || (code c =? 133)%N || (code c =? 160)%N.

(** The class [\w] of [re] on U+0000..U+00FF: alphanumeric or underscore. *)
Definition is_word (c : ascii) : bool :=
  in_range 48 57 c || in_range 65 90 c || in_range 97 122 c || (code c =? 95)%N
  || (code c =? 170)%N || (code c =? 178)%N || (code c =? 179)%N
  || (code c =? 181)%N || (code c =? 185)%N || (code c =? 186)%N
  || in_range 188 190 c
  || in_range 192 214 c || in_range 216 246 c || in_range 248 255 c.

(** [text.split()]: maximal runs of non-space characters. [cur] is the run
    being read. *)
Fixpoint split_from (cur : str) (text : str) : list str :=
  match text with
  | [] => match cur with [] => [] | _ => [cur] end
  | c :: rest =>
      if is_space c
      then match cur with
           | [] => split_from [] rest
           | _ => cur :: split_from [] rest
           end
      else split_from (cur ++ [c]) rest
  end.

Definition split (text : str) : list str := split_from [] text.

(** [sep.join(words)] *)
Fixpoint join (sep : str) (words : list str) : str :=
  match words with
  | [] => []
  | [w] => w
  | w :: ws => w ++ sep ++ join sep ws
  end.

(** [needle in haystack] for strings. *)
Fixpoint is_prefix (p t : str) : bool :=
  match p, t with
  | [], _ => true
  | a :: p', b :: t' => if Ascii.eqb a b then is_prefix p' t' else false
  | _ :: _, [] => false
  end.

Fixpoint str_contains (needle haystack : str) : bool :=
  is_prefix needle haystack ||
  match haystack with
  | [] => false
  | _ :: rest => str_contains needle rest
  end.

(** ** normalize_answer *)

(** [re.sub(r'[^a-z0-9 ]', '', text)] *)
Definition keep_char (c : ascii) : bool :=
  in_range 97 122 c || in_range 48 57 c || (code c =? 32)%N.

Definition remove_punctuation (text : str) : str := List.filter keep_char text.

(** [re.sub(r'\b(a|an|the)\b', ' ', text)].

    [\b] holds between two positions when exactly one of the neighbouring
    characters is a word character; the outside of the string counts as a
    non-word character.  [prev] records whether the character before the
    current position is a word character. *)
Definition next_is_word (text : str) : bool :=
  match text with
  | [] => false
  | c :: _ => is_word c
  end.

Definition boundary (prev : bool) (text : str) : bool :=
  xorb prev (next_is_word text).

Fixpoint strip_prefix (p t : str) : option str :=
  match p, t with
  | [], _ => Some t
  | a :: p', b :: t' => if Ascii.eqb a b then strip_prefix p' t' else None
  | _ :: _, [] => None
  end.

(** One alternative of the pattern, tried at the current position; the
    answer is the length of the match. *)
Definition try_alt (prev : bool) (alt text : str) : option nat :=
  if boundary prev text then
    match strip_prefix alt text with
    | Some rest =>
        if boundary (next_is_word (rev alt)) rest
        then Some (List.length alt) else None
    | None => None
    end
  else None.

Definition articles : list str := [s "a"; s "an"; s "the"].

(** The alternatives are tried left to right; the first that matches wins. *)
Fixpoint first_alt (prev : bool) (alts : list str) (text : str) : option nat :=
  match alts with
  | [] => None
  | alt :: more =>
      match try_alt prev alt text with
      | Some n => Some n
      | None => first_alt prev more text
      end
  end.

Definition match_article (prev : bool) (text : str) : option nat :=
  first_alt prev articles text.

(** The left-to-right scan of [re.sub]: at a position where the pattern
    matches, the replacement is emitted and the scan resumes after the match
    ([skip] counts the matched characters still to be passed over);
    elsewhere the character is copied. *)
Fixpoint sub_articles (prev : bool) (skip : nat) (text : str) : str :=
  match text with
  | [] => []
  | c :: rest =>
      match skip with
      | S k => sub_articles (is_word c) k rest
      | O =>
          match match_article prev text with
          | Some n => " "%char :: sub_articles (is_word c) (Nat.pred n) rest
          | None => c :: sub_articles (is_word c) O rest
          end
      end
  end.

Definition remove_articles (text : str) : str := sub_articles false O text.

Definition white_space_fix (text : str) : str := join (s " ") (split text).

Definition normalize_answer (x : str) : str :=
  white_space_fix (remove_articles (remove_punctuation (lower x))).

(** ** Numbers *)

Definition len {A : Type} (l : list A) : Z := Z.of_nat (List.length l).

(** [a / b] on numbers: true division, raising on a zero divisor. *)
Definition true_div (a b : Q) : result Q :=
  if Qeq_bool b 0 then Raise ZeroDivisionError else Ok (a / b)%Q.

Definition Qlt_b (a b : Q) : bool := negb (Qle_bool b a).

(** [max(a, b)]: the first argument unless the second is strictly greater. *)
Definition py_max (a b : Q) : Q := if Qlt_b a b then b else a.

(** [sum(l)] *)
Definition py_sum (l : list Q) : Q := fold_left Qplus l 0%Q.

(** [min(l)] on a non-empty sequence; [ValueError] on an empty one. *)
Definition py_min_Z (l : list Z) : result Z :=
  match l with
  | [] => Raise ValueError
  | x :: rest => Ok (fold_left (fun m y => if y <? m then y else m) rest x)
  end.

Definition py_min_Q (l : list Q) : result Q :=
  match l with
  | [] => Raise ValueError
  | x :: rest => Ok (fold_left (fun m y => if Qlt_b y m then y else m) rest x)
  end.

(** [range(lo, hi)] *)
Definition py_range (lo hi : Z) : list Z :=
  List.map (fun i => lo + Z.of_nat i) (seq 0 (Z.to_nat (hi - lo))).

(** ** Sequences: indexing and slicing with Python's conventions *)

(** A slice bound is clamped into [0, len]; a negative one counts from the
    end. *)
Definition slice_bound (n i : Z) : Z :=
  if i <? 0 then Z.max 0 (n + i) else Z.min i n.

(** [l[i:j]] *)
Definition slice {A : Type} (l : list A) (i j : Z) : list A :=
  let a := slice_bound (len l) i in
  let b := slice_bound (len l) j in
  firstn (Z.to_nat (b - a)) (skipn (Z.to_nat a) l).

(** [l[:k]] *)
Definition slice_to {A : Type} (l : list A) (k : Z) : list A := slice l 0 k.

(** The position an index denotes, or [IndexError]. *)
Definition index_pos (n i : Z) : result nat :=
  if (0 <=? i) && (i <? n) then Ok (Z.to_nat i)
  else if (- n <=? i) && (i <? 0) then Ok (Z.to_nat (n + i))
  else Raise IndexError.

(** [l[i] += v] *)
Definition list_add_at (l : list Z) (i : Z) (v : Z) : result (list Z) :=
  let* p := index_pos (len l) i in
  match l !! p with
  | Some x => Ok (<[p := x + v]> l)
  | None => Raise IndexError
  end.

(** [l[i]] *)
Definition list_get {A : Type} (l : list A) (i : Z) : result A :=
  let* p := index_pos (len l) i in
  match l !! p with
  | Some x => Ok x
  | None => Raise IndexError
  end.

(** [l[i] = v] *)
Definition list_set {A : Type} (l : list A) (i : Z) (v : A) : result (list A) :=
  let* p := index_pos (len l) i in
  match l !! p with
  | Some _ => Ok (<[p := v]> l)
  | None => Raise IndexError
  end.

(** ** collections.Counter *)

Section Counter.
Context {K : Type} `{Countable K}.

(** [c[k]]: a missing key counts zero. *)
Definition counter_get (c : gmap K Z) (k : K) : Z := default 0 (c !! k).

(** [c[k] += 1] *)
Definition counter_incr (k : K) (c : gmap K Z) : gmap K Z :=
  <[k := counter_get c k + 1]> c.

(** [Counter(iterable)] *)
Definition Counter (l : list K) : gmap K Z :=
  fold_left (fun c k => counter_incr k c) l ∅.

Definition keep_positive (v : Z) : option Z :=
  if 0 <? v then Some v else None.

(** [a & b]: the minimum of the two counts, kept when positive. *)
Definition counter_and (a b : gmap K Z) : gmap K Z :=
  merge (fun x y =>
           match x with
           | Some cx => keep_positive (Z.min cx (default 0 y))
           | None => None
           end) a b.

(** [a |= b]: the maximum of the two counts, kept when positive. *)
Definition counter_or (a b : gmap K Z) : gmap K Z :=
  merge (fun x y =>
           match x, y with
           | None, None => None
           | _, _ => keep_positive (Z.max (default 0 x) (default 0 y))
           end) a b.

(** [sum(c.values())] *)
Definition counter_total (c : gmap K Z) : Z :=
  map_fold (fun _ v acc => acc + v) 0 c.
End Counter.

(** ** The data model consumed by the metrics *)

Record Context : Type := {
  ctx_id : Z;
  ctx_text : str;
  ctx_score : Q;
  has_answer : bool
}.

Record Answer : Type := { answers : list str }.

(** [reorder_contexts] is absent ([None]) until a reranker has run. *)
Record Document : Type := {
  question : str;
  doc_answers : Answer;
  contexts : list Context;
  reorder_contexts : option (list Context)
}.

(** The object built by [type("Data", (object,), {...})()]. *)
Record Data : Type := {
  documents : list Document;
  predictions : list str
}.

(** The configuration dictionary, with the keys the metrics read. *)
Record Config : Type := {
  dataset_name : option str;
  bleu_max_order : option Z;
  bleu_smooth : option bool
}.

(** A metric's aggregate mapping and its per-instance scores. *)
Definition metric_result : Type := (gmap string Q * list Q)%type.

Module BaseMetric.
Record t : Type := { config : Config; dataset_name_of : str }.

Definition init (cfg : Config) : result t :=
  Ok {| config := cfg; dataset_name_of := default (s "default") (dataset_name cfg) |}.

Definition get_dataset_answer (data : Data) : list (list str) :=
  List.map (fun doc => answers (doc_answers doc)) (documents data).

(** [sum(scores) / len(scores)] *)
Definition mean (scores : list Q) : result Q :=
  true_div (py_sum scores) (inject_Z (len scores)).

(** The base class computes nothing: an empty mapping and no scores. *)
Definition calculate_metric (self : t) (data : Data) : result metric_result :=
  Ok (∅, []).
End BaseMetric.

(** ** Generation metrics *)

Module ExactMatch.
Definition metric_name : string := "exact_match".

Fixpoint calculate_em_loop (normalized_prediction : str) (golden_answers : list str) : Q :=
  match golden_answers with
  | [] => 0%Q
  | answer :: rest =>
      if bool_decide (normalize_answer answer = normalized_prediction)
      then 1%Q
      else calculate_em_loop normalized_prediction rest
  end.

Definition calculate_em (prediction : str) (golden_answers : list str) : Q :=
  calculate_em_loop (normalize_answer prediction) golden_answers.

Definition calculate_metric (data : Data) : result metric_result :=
  let pred_list := predictions data in
  let golden_answers_list := BaseMetric.get_dataset_answer data in
  let metric_score_list :=
    List.map (fun pg => calculate_em (fst pg) (snd pg))
             (combine pred_list golden_answers_list) in
  let* score := BaseMetric.mean metric_score_list in
  Ok ({[ "exact_match"%string := (score * 100)%Q ]}, metric_score_list).
End ExactMatch.

Module F1Score.
Definition metric_name : string := "f1_score".

(** The dictionary [{"f1": _, "precision": _, "recall": _}]. *)
Record scores : Type := { f1 : Q; precision : Q; recall : Q }.

Definition zero_scores : scores := {| f1 := 0; precision := 0; recall := 0 |}.

(** The body of the loop over [ground_truths], with [final_metric] as the
    loop's state. *)
Fixpoint token_level_loop (prediction : str) (final_metric : scores)
         (ground_truths : list str) : result scores :=
  match ground_truths with
  | [] => Ok final_metric
  | ground_truth :: rest =>
      let pred_tokens := split (normalize_answer prediction) in
      let truth_tokens := split (normalize_answer ground_truth) in
      let common := counter_and (Counter pred_tokens) (Counter truth_tokens) in
      let num_same := counter_total common in
      if num_same =? 0 then token_level_loop prediction final_metric rest
      else
        let* p := true_div (inject_Z num_same) (inject_Z (len pred_tokens)) in
        let* r := true_div (inject_Z num_same) (inject_Z (len truth_tokens)) in
        let* f := true_div (2 * p * r)%Q (p + r)%Q in
        token_level_loop prediction
          {| f1 := py_max f (f1 final_metric);
             precision := py_max p (precision final_metric);
             recall := py_max r (recall final_metric) |}
          rest
  end.

Definition token_level_scores (prediction : str) (ground_truths : list str) : result scores :=
  token_level_loop prediction zero_scores ground_truths.

Definition calculate_metric (data : Data) : result metric_result :=
  let pred_list := predictions data in
  let golden_answers_list := BaseMetric.get_dataset_answer data in
  let* metric_score_list :=
    map_result (fun pg => let* m := token_level_scores (fst pg) (snd pg) in Ok (f1 m))
               (combine pred_list golden_answers_list) in
  let* score := BaseMetric.mean metric_score_list in
  Ok ({[ "f1_score"%string := (score * 100)%Q ]}, metric_score_list).
End F1Score.

Module PrecisionScore.
Definition metric_name : string := "precision".

Definition calculate_metric (data : Data) : result metric_result :=
  let pred_list := predictions data in
  let golden_answers_list := BaseMetric.get_dataset_answer data in
  let* metric_score_list :=
    map_result (fun pg => let* m := F1Score.token_level_scores (fst pg) (snd pg) in
                          Ok (F1Score.precision m))
               (combine pred_list golden_answers_list) in
  let* score := BaseMetric.mean metric_score_list in
  Ok ({[ "precision"%string := (score * 100)%Q ]}, metric_score_list).
End PrecisionScore.

Module RecallScore.
Definition metric_name : string := "recall".

Definition calculate_metric (data : Data) : result metric_result :=
  let pred_list := predictions data in
  let golden_answers_list := BaseMetric.get_dataset_answer data in
  let* metric_score_list :=
    map_result (fun pg => let* m := F1Score.token_level_scores (fst pg) (snd pg) in
                          Ok (F1Score.recall m))
               (combine pred_list golden_answers_list) in
  let* score := BaseMetric.mean metric_score_list in
  Ok ({[ "recall"%string := (score * 100)%Q ]}, metric_score_list).
End RecallScore.

Module ContainsMatch.
Definition metric_name : string := "contains_match".

Fixpoint calculate_contains_loop (normalized_prediction : str) (golden_answers : list str) : Q :=
  match golden_answers with
  | [] => 0%Q
  | answer :: rest =>
      if str_contains (normalize_answer answer) normalized_prediction
      then 1%Q
      else calculate_contains_loop normalized_prediction rest
  end.

Definition calculate_contains (prediction : str) (golden_answers : list str) : Q :=
  calculate_contains_loop (normalize_answer prediction) golden_answers.

Definition calculate_metric (data : Data) : result metric_result :=
  let pred_list := predictions data in
  let golden_answers_list := BaseMetric.get_dataset_answer data in
  let metric_score_list :=
    List.map (fun pg => calculate_contains (fst pg) (snd pg))
             (combine pred_list golden_answers_list) in
  let* score := BaseMetric.mean metric_score_list in
  Ok ({[ "contains_match"%string := (score * 100)%Q ]}, metric_score_list).
End ContainsMatch.

Module BLEUScore.
Definition metric_name : string := "bleu_score".

Record t : Type := {
  base : BaseMetric.t;
  max_order : Z;
  smooth : bool
}.

(** [__init__]: the configuration is read with defaults and stored as it
    is. *)
Definition init (cfg : Config) : result t :=
  let* b := BaseMetric.init cfg in
  Ok {| base := b;
        max_order := default 4 (bleu_max_order cfg);
        smooth := default false (bleu_smooth cfg) |}.

(** An n-gram is the tuple of its tokens. *)
Definition _get_ngrams (segment : list str) (max_order : Z) : gmap (list str) Z :=
  fold_left
    (fun ngram_counts order =>
       fold_left
         (fun ngram_counts i =>
            let ngram := slice segment i (i + order) in
            counter_incr ngram ngram_counts)
         (py_range 0 (len segment - order + 1)) ngram_counts)
    (py_range 1 (max_order + 1)) ∅.

(** The accumulators of the pass over the corpus. *)
Record acc : Type := {
  matches_by_order : list Z;
  possible_matches_by_order : list Z;
  reference_length : Z;
  translation_length : Z
}.

(** [for ngram in overlap: matches_by_order[len(ngram) - 1] += overlap[ngram]] *)
Definition add_matches (overlap : gmap (list str) Z) (mbo : list Z) : result (list Z) :=
  map_fold (fun ngram count st =>
              let* l := st in list_add_at l (len ngram - 1) count)
           (Ok mbo) overlap.

(** [for order in range(1, max_order + 1): ...] *)
Definition add_possible (translation : list str) (max_order : Z) (pmbo : list Z)
  : result (list Z) :=
  fold_left (fun st order =>
               let* l := st in
               let possible_matches := len translation - order + 1 in
               if 0 <? possible_matches
               then list_add_at l (order - 1) possible_matches
               else Ok l)
            (py_range 1 (max_order + 1)) (Ok pmbo).

(** One iteration of the loop over [zip(reference_corpus, translation_corpus)]. *)
Definition corpus_step (self : t) (a : acc) (references : list (list str))
           (translation : list str) : result acc :=
  let* shortest := py_min_Z (List.map len references) in
  let reference_length' := reference_length a + shortest in
  let translation_length' := translation_length a + len translation in
  let merged_ref_ngram_counts :=
    fold_left (fun merged reference =>
                 counter_or merged (_get_ngrams reference (max_order self)))
              references ∅ in
  let translation_ngram_counts := _get_ngrams translation (max_order self) in
  let overlap := counter_and translation_ngram_counts merged_ref_ngram_counts in
  let* mbo := add_matches overlap (matches_by_order a) in
  let* pmbo := add_possible translation (max_order self) (possible_matches_by_order a) in
  Ok {| matches_by_order := mbo;
        possible_matches_by_order := pmbo;
        reference_length := reference_length';
        translation_length := translation_length' |}.

Fixpoint corpus_loop (self : t) (a : acc)
         (pairs : list (list (list str) * list str)) : result acc :=
  match pairs with
  | [] => Ok a
  | (references, translation) :: rest =>
      let* a' := corpus_step self a references translation in
      corpus_loop self a' rest
  end.

(** [for i in range(max_order): precisions[i] = ...] *)
Definition fill_precisions (self : t) (a : acc) : result (list Q) :=
  fold_left (fun st i =>
               let* precisions := st in
               let* m := list_get (matches_by_order a) i in
               let* p := list_get (possible_matches_by_order a) i in
               let* v :=
                 if smooth self
                 then true_div (inject_Z m + 1)%Q (inject_Z p + 1)%Q
                 else if 0 <? p then true_div (inject_Z m) (inject_Z p)
                      else Ok 0%Q in
               list_set precisions i v)
            (py_range 0 (max_order self))
            (Ok (repeat 0%Q (Z.to_nat (max_order self)))).

(** [sum(math.log(p) for p in precisions)] *)
Definition sum_log (precisions : list Q) : R :=
  fold_left (fun acc p => (acc + ln (Q2R p))%R) precisions 0%R.

Definition compute_bleu (self : t) (reference_corpus : list (list (list str)))
           (translation_corpus : list (list str)) : result R :=
  let a0 := {| matches_by_order := repeat 0 (Z.to_nat (max_order self));
               possible_matches_by_order := repeat 0 (Z.to_nat (max_order self));
               reference_length := 0;
               translation_length := 0 |} in
  let* a := corpus_loop self a0 (combine reference_corpus translation_corpus) in
  let* precisions := fill_precisions self a in
  let* lowest := py_min_Q precisions in
  if Qlt_b 0 lowest
  then Ok (exp (sum_log precisions / IZR (max_order self)))%R
  else Ok 0%R.

Definition calculate_metric (self : t) (data : Data) : result (gmap string R * list R) :=
  let pred_list := List.map (fun pred => split (normalize_answer pred)) (predictions data) in
  let golden_answers_list :=
    List.map (fun ans_list => List.map (fun ans => split (normalize_answer ans)) ans_list)
             (BaseMetric.get_dataset_answer data) in
  let* bleu_score := compute_bleu self golden_answers_list pred_list in
  Ok ({[ "bleu_score"%string := bleu_score ]}, repeat bleu_score (List.length pred_list)).
End BLEUScore.

(** ** The facade *)

Module Metrics.
Record t : Type := { documents_of : list Document; config : Config }.

Definition init (docs : list Document) : t :=
  {| documents_of := docs;
     config := {| dataset_name := Some (s "QA_Evaluation");
                  bleu_max_order := None;
                  bleu_smooth := None |} |}.

(** [document.reorder_contexts if (use_reordered and document.reorder_contexts)
     else document.contexts]; an absent or empty list is false. *)
Definition contexts_to_use (use_reordered : bool) (document : Document) : list Context :=
  match reorder_contexts document with
  | Some (c :: cs) => if use_reordered then c :: cs else contexts document
  | _ => contexts document
  end.

(** The loop of [top_k_accuracy], with [(hits, total)] as its state. *)
Fixpoint top_k_loop (k : Z) (use_reordered : bool) (docs : list Document)
         (hits total : Z) : Z * Z :=
  match docs with
  | [] => (hits, total)
  | document :: rest =>
      let selected := slice_to (contexts_to_use use_reordered document) k in
      let hits' := if existsb has_answer selected then hits + 1 else hits in
      top_k_loop k use_reordered rest hits' (total + 1)
  end.

Definition top_k_accuracy (self : t) (k : Z) (use_reordered : bool) : result Q :=
  let '(hits, total) := top_k_loop k use_reordered (documents_of self) 0 0 in
  if 0 <? total
  then let* ratio := true_div (inject_Z hits) (inject_Z total) in
       Ok (ratio * 100)%Q
  else Ok 0%Q.

(** The five scorers, in the order of [metric_classes]. *)
Definition metric_classes : list (Data -> result metric_result) :=
  [ExactMatch.calculate_metric; F1Score.calculate_metric;
   PrecisionScore.calculate_metric; RecallScore.calculate_metric;
   ContainsMatch.calculate_metric].

(** [results.update(score)]: the keys of [score] overwrite those of
    [results]. *)
Definition dict_update (results score : gmap string Q) : gmap string Q :=
  score ∪ results.

(** The loop over [metric_classes]: each scorer is constructed from the
    facade's configuration (the five classes inherit [BaseMetric.__init__])
    and run on the batch. *)
Fixpoint run_metrics (cfg : Config) (data : Data)
         (classes : list (Data -> result metric_result))
         (results : gmap string Q) : result (gmap string Q) :=
  match classes with
  | [] => Ok results
  | calculate_metric :: rest =>
      let* metric := BaseMetric.init cfg in
      let* r := calculate_metric data in
      run_metrics cfg data rest (dict_update results (fst r))
  end.

Definition calculate_generation_metrics (self : t) (preds : list str)
  : result (gmap string Q) :=
  let data := {| documents := documents_of self; predictions := preds |} in
  run_metrics (config self) data metric_classes ∅.

(** [f'top_{k}']: the decimal form of the integer after the prefix. *)
Definition top_label (k : Z) : string :=
  String.append "top_" (NilZero.string_of_int (Z.to_int k)).

(** The default of the argument [ks]. *)
Definition default_ks : list Z := [1; 5; 10; 20; 50; 100].

(** The loop of [calculate_retrieval_metrics], with [results] as its
    state. *)
Fixpoint retrieval_loop (self : t) (use_reordered : bool) (ks : list Z)
         (results : gmap string Q) : result (gmap string Q) :=
  match ks with
  | [] => Ok results
  | k :: rest =>
      let* v := top_k_accuracy self k use_reordered in
      retrieval_loop self use_reordered rest (<[top_label k := v]> results)
  end.

Definition calculate_retrieval_metrics (self : t) (ks : list Z) (use_reordered : bool)
  : result (gmap string Q) :=
  retrieval_loop self use_reordered ks ∅.
End Metrics.

(** ** Reference formulations

    The definitions of this module follow the wording of the specification
    rather than the code; the theorems below compare the two. *)

Module Spec.
(** Top-K accuracy: the contexts selected for a document, whether the
    document is a hit, and the percentage of hits. *)
Definition selected (use_reordered : bool) (k : Z) (d : Document) : list Context :=
  match reorder_contexts d with
  | Some rc =>
      if use_reordered && negb (bool_decide (rc = []))
      then slice_to rc k
      else slice_to (contexts d) k
  | None => slice_to (contexts d) k
  end.

Definition hit (use_reordered : bool) (k : Z) (d : Document) : bool :=
  existsb has_answer (selected use_reordered k d).

Definition hits (use_reordered : bool) (k : Z) (docs : list Document) : Z :=
  len (List.filter (hit use_reordered k) docs).

Definition top_k_accuracy (docs : list Document) (k : Z) (use_reordered : bool) : Q :=
  if len docs =? 0 then 0%Q
  else (100 * inject_Z (hits use_reordered k docs) / inject_Z (len docs))%Q.

(** Token scores: whitespace-split normalized tokens, and the count-aware
    multiset intersection of two token lists. *)
Definition tokens (x : str) : list str := split (normalize_answer x).

Definition occurrences {K : Type} `{EqDecision K} (t : K) (l : list K) : Z :=
  len (List.filter (fun x => bool_decide (x = t)) l).

Fixpoint distinct (l : list str) : list str :=
  match l with
  | [] => []
  | x :: rest =>
      if bool_decide (x ∈ rest) then distinct rest else x :: distinct rest
  end.

Definition num_same (pred ref : list str) : Z :=
  fold_right (fun t n => Z.min (occurrences t pred) (occurrences t ref) + n) 0
             (distinct pred).

(** What one reference contributes. *)
Definition reference_scores (pred ref : list str) : F1Score.scores :=
  let n := num_same pred ref in
  if n =? 0 then F1Score.zero_scores
  else
    let p := (inject_Z n / inject_Z (len pred))%Q in
    let r := (inject_Z n / inject_Z (len ref))%Q in
    {| F1Score.f1 := (2 * p * r / (p + r))%Q;
       F1Score.precision := p;
       F1Score.recall := r |}.

(** The maximum of a list of scores, none of which is negative. *)
Definition maximum (l : list Q) : Q := fold_right Qmax 0%Q l.

Definition best (proj : F1Score.scores -> Q) (prediction : str)
           (ground_truths : list str) : Q :=
  maximum (List.map (fun g => proj (reference_scores (tokens prediction) (tokens g)))
                    ground_truths).
End Spec.

(** ** Sample data used by the examples *)

Definition doc_hit_first : Document :=
  {| question := s "capital of France?";
     doc_answers := {| answers := [s "Paris"; s "France"] |};
     contexts := [ {| ctx_id := 1; ctx_text := s "Paris is the capital";
                      ctx_score := 1; has_answer := true |};
                   {| ctx_id := 2; ctx_text := s "Lyon is a city";
                      ctx_score := 0; has_answer := false |} ];
     reorder_contexts := None |}.

Definition doc_hit_second : Document :=
  {| question := s "capital of Italy?";
     doc_answers := {| answers := [s "Rome"] |};
     contexts := [ {| ctx_id := 3; ctx_text := s "Milan is a city";
                      ctx_score := 1; has_answer := false |};
                   {| ctx_id := 4; ctx_text := s "Rome is the capital";
                      ctx_score := 0; has_answer := true |} ];
     reorder_contexts := None |}.

(** A configuration with a BLEU order of zero. *)
Definition config_order_zero : Config :=
  {| dataset_name := None; bleu_max_order := Some 0; bleu_smooth := None |}.

(** The BLEU scorer built from the facade's configuration: order 4, no
    smoothing. *)
Definition bleu_default : BLEUScore.t :=
  {| BLEUScore.base :=
       {| BaseMetric.config := Metrics.config (Metrics.init []);
          BaseMetric.dataset_name_of := s "QA_Evaluation" |};
     BLEUScore.max_order := 4;
     BLEUScore.smooth := false |}.

(** ** Auxiliary definitions used in the proofs *)

(** What every scorer reads from the batch: the pairs of [zip]. *)
Definition pairs_of (data : Data) : list (str * list str) :=
  combine (predictions data) (BaseMetric.get_dataset_answer data).

(** The keys of the mapping returned by the facade. *)
Definition generation_keys : gset string :=
  {[ "exact_match"%string; "f1_score"%string; "precision"%string;
     "recall"%string; "contains_match"%string ]}.

(** A scorer built on a total per-instance score raises exactly on an empty
    pairing. *)
Definition scorer_shape (name : string) (calculate_metric : Data -> result metric_result) : Prop :=
  forall data,
    match pairs_of data with
    | [] => calculate_metric data = Raise ZeroDivisionError
    | _ :: _ => exists v l, calculate_metric data = Ok ({[ name := v ]}, l)
                            /\ List.length l = List.length (pairs_of data)
    end.

(** Characters that survive [remove_punctuation] other than the space. *)
Definition word_char (c : ascii) : bool := in_range 97 122 c || in_range 48 57 c.

(** A text as [remove_punctuation] leaves it. *)
Definition clean (text : str) : Prop := Forall (fun c => keep_char c = true) text.

(** A token as it occurs in a clean text. *)
Definition word (w : str) : Prop := w <> [] /\ Forall (fun c => word_char c = true) w.

Definition is_article (w : str) : bool := bool_decide (w ∈ articles).

(** The tokens of the normalized answer. *)
Definition norm_words (x : str) : list str :=
  List.filter (fun w => negb (is_article w)) (split (remove_punctuation (lower x))).

(** The number of n-gram occurrences of length [o] held by a counter. *)
Definition count_len (o : Z) (c : gmap (list str) Z) : Z :=
  map_fold (fun k v n => if len k =? o then n + v else n) 0 c.

(** All n-grams of a counter have between one and [n] tokens, with a
    positive count. *)
Definition ngrams_ok (n : Z) (c : gmap (list str) Z) : Prop :=
  forall k v, c !! k = Some v -> 1 <= len k <= n /\ 0 < v.

(** [l'] is [l] with [w i] added at every position [i]. *)
Definition bumped (w : nat -> Z) (l l' : list Z) : Prop :=
  List.length l' = List.length l
  /\ forall i x, l !! i = Some x -> l' !! i = Some (x + w i).

(** The number of windows of [i + 1] tokens in a translation. *)
Definition windows (translation : list str) (i : nat) : Z :=
  Z.max 0 (len translation - Z.of_nat i).

(** The corpus in which every translation is its own single reference. *)
Definition self_references (translations : list (list str)) : list (list (list str)) :=
  List.map (fun t => [t]) translations.

(** The invariant of the corpus pass when every translation is its own
    reference: matches and possible matches agree. *)
Definition balanced (n : Z) (a : BLEUScore.acc) : Prop :=
  BLEUScore.matches_by_order a = BLEUScore.possible_matches_by_order a
  /\ len (BLEUScore.matches_by_order a) = n
  /\ Forall (fun x => 0 <= x) (BLEUScore.matches_by_order a).

Definition all_positive (a : BLEUScore.acc) : Prop :=
  Forall (fun x => 0 < x) (BLEUScore.matches_by_order a).

(** A score between 0 and 1. *)
Definition unit_score (q : Q) : Prop := (0 <= q)%Q /\ (q <= 1)%Q.

(** What an averaged scorer returns, when it returns: one score between 0
    and 1 per pair of the batch, and one key holding their mean as a
    percentage. *)
Definition scorer_bounded (calculate_metric : Data -> result metric_result) : Prop :=
  forall data m l,
    calculate_metric data = Ok (m, l) ->
    List.length l = Nat.min (List.length (predictions data)) (List.length (documents data))
    /\ Forall unit_score l
    /\ exists (name : string) (mu : Q),
         m = {[ name := (mu * 100)%Q ]} /\ BaseMetric.mean l = Ok mu /\ unit_score mu.

(** The number of positions at which the n-gram [g] occurs in a segment. *)
Definition window_count (segment : list str) (g : list str) : Z :=
  len (List.filter (fun i => bool_decide (slice segment i (i + len g) = g))
                   (py_range 0 (len segment - len g + 1))).

(** The accumulators of a corpus pass: both lists have one entry per order,
    and the matches of an order are between zero and its possible matches. *)
Definition graded (n : Z) (a : BLEUScore.acc) : Prop :=
  len (BLEUScore.matches_by_order a) = n
  /\ len (BLEUScore.possible_matches_by_order a) = n
  /\ forall i m p,
       BLEUScore.matches_by_order a !! i = Some m ->
       BLEUScore.possible_matches_by_order a !! i = Some p ->
       0 <= m <= p.

(** The windows of [i + 1] tokens over a list of translations. *)
Definition total_windows (translations : list (list str)) (i : nat) : Z :=
  fold_right (fun t n => windows t i + n) 0 translations.

(** The precision of one order, from its matches and possible matches. *)
Definition precision_of (smooth : bool) (m p : Z) : Q :=
  if smooth then ((inject_Z m + 1) / (inject_Z p + 1))%Q
  else if 0 <? p then (inject_Z m / inject_Z p)%Q else 0%Q.

(** The last step of [compute_bleu]: the score from the precisions. *)
Definition bleu_of (max_order : Z) (precisions : list Q) : result R :=
  let* lowest := py_min_Q precisions in
  if Qlt_b 0 lowest
  then Ok (exp (BLEUScore.sum_log precisions / IZR max_order))%R
  else Ok 0%R.

(** The initial accumulators of [compute_bleu]. *)
Definition initial_acc (max_order : Z) : BLEUScore.acc :=
  {| BLEUScore.matches_by_order := repeat 0 (Z.to_nat max_order);
     BLEUScore.possible_matches_by_order := repeat 0 (Z.to_nat max_order);
     BLEUScore.reference_length := 0;
     BLEUScore.translation_length := 0 |}.

(** The default BLEU scorer with smoothing switched on. *)
Definition bleu_smoothed : BLEUScore.t :=
  {| BLEUScore.base := BLEUScore.base bleu_default;
     BLEUScore.max_order := 4;
     BLEUScore.smooth := true |}.

(** * Properties *)

(** ** Sanity checks of the embedding on the examples of the specification *)

Example normalize_fox :
  normalize_answer (s "the quick, brown fox!") = s "quick brown fox".
Proof. reflexivity. Qed.

Example normalize_case :
  normalize_answer (s "A Cat SAT.") = normalize_answer (s "a cat sat").
Proof. reflexivity. Qed.

Example normalize_than :
  normalize_answer (s "An apple, rather than  the pear") = s "apple rather than pear".
Proof. reflexivity. Qed.

Example exact_match_paris :
  ExactMatch.calculate_em (s "Paris") [s "paris"; s "France"] = 1%Q
  /\ ExactMatch.calculate_em (s "Lyon") [s "paris"; s "France"] = 0%Q.
Proof. split; reflexivity. Qed.

Example contains_paris :
  ContainsMatch.calculate_contains (s "The capital is paris, france") [s "Paris"] = 1%Q.
Proof. reflexivity. Qed.

(** ** Arithmetic helpers *)

Lemma len_nonneg {A : Type} (l : list A) : 0 <= len l.
Proof. unfold len. lia. Qed.

Lemma len_nil_iff {A : Type} (l : list A) : len l = 0 <-> l = [].
Proof.
  unfold len. destruct l; simpl; split; intros E; try done; lia.
Qed.

Lemma len_cons {A : Type} (x : A) (l : list A) : len (x :: l) = len l + 1.
Proof. unfold len. simpl. lia. Qed.

Lemma true_div_ok (a b : Q) : ~ (b == 0)%Q -> true_div a b = Ok (a / b)%Q.
Proof.
  intros Hb. unfold true_div.
  destruct (Qeq_bool b 0) eqn:E; [|done].
  apply Qeq_bool_eq in E. contradiction.
Qed.

Lemma true_div_zero (a b : Q) : (b == 0)%Q -> true_div a b = Raise ZeroDivisionError.
Proof.
  intros Hb. unfold true_div. by rewrite (Qeq_eq_bool _ _ Hb).
Qed.

Lemma inject_Z_nonzero (z : Z) : z <> 0 -> ~ (inject_Z z == 0)%Q.
Proof. intros Hz E. unfold Qeq in E. simpl in E. lia. Qed.

Lemma mean_nil : BaseMetric.mean [] = Raise ZeroDivisionError.
Proof. reflexivity. Qed.

Lemma mean_cons (x : Q) (l : list Q) :
  BaseMetric.mean (x :: l) = Ok (py_sum (x :: l) / inject_Z (len (x :: l)))%Q.
Proof.
  unfold BaseMetric.mean. apply true_div_ok, inject_Z_nonzero.
  rewrite len_cons. pose proof (len_nonneg l). lia.
Qed.

(** ** Slices *)

Lemma slice_to_firstn {A : Type} (l : list A) (k : Z) :
  slice_to l k = firstn (Z.to_nat (slice_bound (len l) k)) l.
Proof.
  unfold slice_to, slice.
  assert (slice_bound (len l) 0 = 0) as ->.
  { unfold slice_bound. simpl. pose proof (len_nonneg l). lia. }
  by rewrite Z.sub_0_r.
Qed.

Lemma slice_bound_mono (n k k' : Z) :
  0 <= n -> k <= k' -> (0 <= k \/ k' < 0) ->
  slice_bound n k <= slice_bound n k'.
Proof.
  intros Hn Hk Hs. unfold slice_bound.
  destruct (Z.ltb_spec k 0), (Z.ltb_spec k' 0); lia.
Qed.

Lemma existsb_firstn_mono {A : Type} (f : A -> bool) (l : list A) (a b : nat) :
  (a <= b)%nat -> existsb f (firstn a l) = true -> existsb f (firstn b l) = true.
Proof.
  revert a b. induction l as [|x l IH]; intros a b Hab.
  - by rewrite !firstn_nil.
  - destruct a as [|a]; [done|].
    destruct b as [|b]; [lia|]. simpl.
    destruct (f x); [done|]. simpl. apply IH. lia.
Qed.

Lemma existsb_slice_to_mono {A : Type} (f : A -> bool) (l : list A) (k k' : Z) :
  k <= k' -> (0 <= k \/ k' < 0) ->
  existsb f (slice_to l k) = true -> existsb f (slice_to l k') = true.
Proof.
  intros Hk Hs. rewrite !slice_to_firstn. apply existsb_firstn_mono.
  pose proof (slice_bound_mono (len l) k k' (len_nonneg l) Hk Hs). lia.
Qed.

(** ** Top-K accuracy *)

Lemma contexts_to_use_selected (use_reordered : bool) (k : Z) (d : Document) :
  slice_to (Metrics.contexts_to_use use_reordered d) k = Spec.selected use_reordered k d.
Proof.
  unfold Metrics.contexts_to_use, Spec.selected.
  destruct (reorder_contexts d) as [[|c cs]|], use_reordered; reflexivity.
Qed.

Lemma top_k_loop_counts (k : Z) (use_reordered : bool) (docs : list Document) (h t : Z) :
  Metrics.top_k_loop k use_reordered docs h t
  = (h + Spec.hits use_reordered k docs, t + len docs).
Proof.
  revert h t. induction docs as [|d docs IH]; intros h t.
  - simpl. unfold Spec.hits. simpl. f_equal; unfold len; simpl; lia.
  - simpl. rewrite IH, contexts_to_use_selected.
    unfold Spec.hits. simpl. fold (Spec.hit use_reordered k d).
    destruct (Spec.hit use_reordered k d); rewrite ?len_cons; f_equal; lia.
Qed.

Lemma hits_bounds (use_reordered : bool) (k : Z) (docs : list Document) :
  0 <= Spec.hits use_reordered k docs <= len docs.
Proof.
  unfold Spec.hits, len. pose proof (filter_length_le (Spec.hit use_reordered k) docs). lia.
Qed.

Lemma top_k_accuracy_value (docs : list Document) (k : Z) (use_reordered : bool) :
  Metrics.top_k_accuracy (Metrics.init docs) k use_reordered
  = if 0 <? len docs
    then Ok (inject_Z (Spec.hits use_reordered k docs) / inject_Z (len docs) * 100)%Q
    else Ok 0%Q.
Proof.
  unfold Metrics.top_k_accuracy. simpl. rewrite top_k_loop_counts, !Z.add_0_l.
  destruct (Z.ltb_spec 0 (len docs)) as [Hpos|Hz]; [|done].
  rewrite true_div_ok; [done|]. apply inject_Z_nonzero. lia.
Qed.

Lemma hit_mono (use_reordered : bool) (k k' : Z) (d : Document) :
  k <= k' -> (0 <= k \/ k' < 0) ->
  Spec.hit use_reordered k d = true -> Spec.hit use_reordered k' d = true.
Proof.
  intros Hk Hs. unfold Spec.hit. rewrite <- !contexts_to_use_selected.
  by apply existsb_slice_to_mono.
Qed.

Lemma hits_mono (use_reordered : bool) (k k' : Z) (docs : list Document) :
  k <= k' -> (0 <= k \/ k' < 0) ->
  Spec.hits use_reordered k docs <= Spec.hits use_reordered k' docs.
Proof.
  intros Hk Hs. unfold Spec.hits. induction docs as [|d docs IH]; [done|].
  simpl. pose proof (hit_mono use_reordered k k' d Hk Hs) as Hd.
  destruct (Spec.hit use_reordered k d).
  - rewrite Hd by done. rewrite !len_cons. lia.
  - destruct (Spec.hit use_reordered k' d); rewrite ?len_cons; lia.
Qed.

(** C4. [top_k_accuracy] never raises; its value is the percentage
    [100 * hits / total] of the specification, where a document is a hit iff
    one of the contexts selected for it ([reorder_contexts[:k]] when
    [use_reordered] holds and the reordered list is non-empty, [contexts[:k]]
    otherwise) has [has_answer] set; on an empty document list it is 0. *)
Theorem top_k_accuracy_spec (docs : list Document) (k : Z) (use_reordered : bool) :
  (exists q, Metrics.top_k_accuracy (Metrics.init docs) k use_reordered = Ok q
             /\ (q == Spec.top_k_accuracy docs k use_reordered)%Q)
  /\ (forall d, Spec.selected use_reordered k d
                = match reorder_contexts d with
                  | Some (c :: cs) =>
                      if use_reordered then slice_to (c :: cs) k
                      else slice_to (contexts d) k
                  | _ => slice_to (contexts d) k
                  end)
  /\ (forall d, Spec.hit use_reordered k d = true
                <-> exists c, In c (Spec.selected use_reordered k d) /\ has_answer c = true)
  /\ Metrics.top_k_accuracy (Metrics.init []) k use_reordered = Ok 0%Q.
Proof.
  repeat split.
  - rewrite top_k_accuracy_value. unfold Spec.top_k_accuracy.
    pose proof (len_nonneg docs) as Hn.
    destruct (Z.ltb_spec 0 (len docs)) as [Hpos|Hz].
    + eexists; split; [reflexivity|].
      destruct (Z.eqb_spec (len docs) 0) as [E|_]; [lia|].
      field. apply inject_Z_nonzero. lia.
    + eexists; split; [reflexivity|].
      destruct (Z.eqb_spec (len docs) 0) as [_|E]; [reflexivity|lia].
  - intros d. unfold Spec.selected.
    destruct (reorder_contexts d) as [[|c cs]|], use_reordered; reflexivity.
  - unfold Spec.hit. rewrite existsb_exists. intros [c Hc]. by exists c.
  - unfold Spec.hit. rewrite existsb_exists. intros [c Hc]. by exists c.
Qed.

(** C7. For a fixed document list and flag, [top_k_accuracy] is
    non-decreasing in the cut-off: for cut-offs [0 <= k <= k'],
    [top_k_accuracy(k) <= top_k_accuracy(k')]. *)
Theorem top_k_accuracy_monotone (docs : list Document) (use_reordered : bool) (k k' : Z) :
  0 <= k -> k <= k' ->
  exists q q',
    Metrics.top_k_accuracy (Metrics.init docs) k use_reordered = Ok q
    /\ Metrics.top_k_accuracy (Metrics.init docs) k' use_reordered = Ok q'
    /\ (q <= q')%Q.
Proof.
  intros Hk0 Hk. rewrite !top_k_accuracy_value.
  destruct (Z.ltb_spec 0 (len docs)) as [Hpos|Hz].
  - do 2 eexists. repeat split.
    apply Qmult_le_compat_r; [|done].
    apply Qmult_le_compat_r.
    + rewrite <- Zle_Qle. apply hits_mono; [done|by left].
    + apply Qinv_le_0_compat. replace 0%Q with (inject_Z 0) by done.
      rewrite <- Zle_Qle. lia.
  - exists 0%Q, 0%Q. repeat split. apply Qle_refl.
Qed.

Lemma top_k_accuracy_monotone_witness :
  exists q q',
    Metrics.top_k_accuracy (Metrics.init [doc_hit_first; doc_hit_second]) 1 false = Ok q
    /\ Metrics.top_k_accuracy (Metrics.init [doc_hit_first; doc_hit_second]) 2 false = Ok q'
    /\ (q <= q')%Q.
Proof.
  apply (top_k_accuracy_monotone [doc_hit_first; doc_hit_second] false 1 2); lia.
Defined.

Example top_k_grows :
  Metrics.top_k_accuracy (Metrics.init [doc_hit_first; doc_hit_second]) 1 false
  = Ok (100 # 2)%Q
  /\ Metrics.top_k_accuracy (Metrics.init [doc_hit_first; doc_hit_second]) 2 false
     = Ok (200 # 2)%Q.
Proof. split; reflexivity. Qed.

Example bleu_default_init :
  BLEUScore.init (Metrics.config (Metrics.init [])) = Ok bleu_default.
Proof. reflexivity. Qed.

Example top_k_two_documents :
  Metrics.top_k_accuracy (Metrics.init [doc_hit_first; doc_hit_second]) 1 false = Ok (100 # 2)%Q
  /\ (100 # 2 == 50)%Q.
Proof. split; reflexivity. Qed.

(** ** Counters *)

Section CounterFacts.
Context {K : Type} `{Countable K}.
Implicit Types (c a b : gmap K Z) (k : K) (l : list K).

Lemma counter_get_incr k k' c :
  counter_get (counter_incr k c) k'
  = counter_get c k' + (if bool_decide (k = k') then 1 else 0).
Proof.
  unfold counter_incr, counter_get. case_bool_decide as E.
  - subst. by rewrite lookup_insert_eq.
  - rewrite lookup_insert_ne by done. lia.
Qed.

Lemma counter_get_fold l c k :
  counter_get (fold_left (fun c k => counter_incr k c) l c) k
  = counter_get c k + Spec.occurrences k l.
Proof.
  revert c. induction l as [|x l IH]; intros c; simpl.
  - unfold Spec.occurrences, len. simpl. lia.
  - rewrite IH, counter_get_incr. unfold Spec.occurrences. simpl.
    case_bool_decide; rewrite ?len_cons; lia.
Qed.

Lemma counter_get_Counter l k : counter_get (Counter l) k = Spec.occurrences k l.
Proof. unfold Counter. rewrite counter_get_fold. unfold counter_get. by rewrite lookup_empty. Qed.

Lemma occurrences_nonneg k l : 0 <= Spec.occurrences k l.
Proof. apply len_nonneg. Qed.

Lemma lookup_counter_and a b k :
  counter_and a b !! k
  = match a !! k with
    | Some cx => keep_positive (Z.min cx (counter_get b k))
    | None => None
    end.
Proof.
  unfold counter_and. rewrite lookup_merge. unfold diag_None, counter_get.
  by destruct (a !! k), (b !! k).
Qed.

Lemma counter_get_and a b k :
  0 <= counter_get a k ->
  counter_get (counter_and a b) k = Z.max 0 (Z.min (counter_get a k) (counter_get b k)).
Proof.
  intros Ha. unfold counter_get in *. rewrite lookup_counter_and.
  destruct (a !! k) as [cx|] eqn:E; simpl in *; [|lia].
  unfold keep_positive, counter_get.
  destruct (Z.ltb_spec 0 (cx `min` default 0 (b !! k))); simpl; lia.
Qed.

Lemma counter_and_positive a b k v : counter_and a b !! k = Some v -> 0 < v.
Proof.
  rewrite lookup_counter_and. destruct (a !! k); [|done].
  unfold keep_positive. destruct (Z.ltb_spec 0 (Z.min z (counter_get b k))); [|done].
  intros [= <-]. done.
Qed.

Lemma counter_and_empty_l b : counter_and ∅ b = ∅.
Proof. apply map_eq. intros k. by rewrite lookup_counter_and, !lookup_empty. Qed.

Lemma counter_total_empty : counter_total (∅ : gmap K Z) = 0.
Proof. unfold counter_total. by rewrite map_fold_empty. Qed.

Lemma counter_total_insert c k v :
  c !! k = None -> counter_total (<[k := v]> c) = counter_total c + v.
Proof.
  intros Hk. unfold counter_total.
  rewrite map_fold_insert_L; [done| |done]. intros. lia.
Qed.

Lemma counter_total_delete c k :
  counter_total c = counter_total (delete k c) + counter_get c k.
Proof.
  unfold counter_get. destruct (c !! k) as [v|] eqn:E; simpl.
  - unfold counter_total. rewrite (map_fold_delete_L _ _ k v c); [done| |done].
    intros. lia.
  - rewrite delete_id by done. lia.
Qed.

Lemma counter_total_nonneg c :
  (forall k v, c !! k = Some v -> 0 <= v) -> 0 <= counter_total c.
Proof.
  induction c as [|k v c Hk IH] using map_ind; intros Hpos.
  - by rewrite counter_total_empty.
  - rewrite counter_total_insert by done.
    assert (0 <= v) by (apply (Hpos k); by rewrite lookup_insert_eq).
    assert (0 <= counter_total c); [|lia].
    apply IH. intros k' v' Hk'. apply (Hpos k').
    rewrite lookup_insert_ne; [done|]. intros ->. congruence.
Qed.

(** The total is the sum of the counts over any duplicate-free list that
    covers the keys. *)
Lemma counter_total_keys c (ks : list K) :
  NoDup ks -> (forall k, is_Some (c !! k) -> k ∈ ks) ->
  counter_total c = fold_right (fun k n => counter_get c k + n) 0 ks.
Proof.
  intros Hnd. revert c. induction Hnd as [|k ks Hk Hnd IH]; intros c Hcov.
  - assert (c = ∅) as ->.
    { apply map_eq. intros k. rewrite lookup_empty.
      destruct (c !! k) eqn:E; [|done].
      exfalso. eapply not_elem_of_nil, Hcov. by rewrite E. }
    apply counter_total_empty.
  - simpl. rewrite (counter_total_delete c k), (IH (delete k c)).
    + rewrite Z.add_comm. f_equal.
      clear IH Hnd Hcov. induction ks as [|k' ks IH]; [done|]. simpl.
      rewrite IH by (intros ?; apply Hk; by right).
      f_equal. unfold counter_get. rewrite lookup_delete_ne; [done|].
      intros ->. apply Hk. by left.
    + intros k' [v Hv]. destruct (decide (k' = k)) as [->|Hne].
      * by rewrite lookup_delete_eq in Hv.
      * rewrite lookup_delete_ne in Hv by done.
        assert (k' ∈ k :: ks) as Hin by (apply Hcov; by rewrite Hv).
        apply elem_of_cons in Hin as [?|?]; [done|done].
Qed.

Lemma Counter_lookup_elem l k v : Counter l !! k = Some v -> k ∈ l /\ 0 < v.
Proof.
  intros Hv.
  assert (Hget : counter_get (Counter l) k = v) by (unfold counter_get; by rewrite Hv).
  assert (forall l' c, (forall k v, c !! k = Some v -> 0 < v) ->
            forall k v, fold_left (fun c k => counter_incr k c) l' c !! k = Some v -> 0 < v)
    as Hpos.
  { clear. induction l' as [|x l' IH]; intros c Hc; simpl; [done|].
    apply IH. intros k v. unfold counter_incr.
    destruct (decide (x = k)) as [->|Hne].
    - rewrite lookup_insert_eq. intros [= <-]. unfold counter_get.
      destruct (c !! k) as [w|] eqn:E; simpl; [|lia].
      specialize (Hc k w E). lia.
    - rewrite lookup_insert_ne by done. apply Hc. }
  assert (0 < v) as Hv0.
  { eapply (Hpos l ∅); [|exact Hv]. intros ? ?. by rewrite lookup_empty. }
  split; [|done].
  rewrite counter_get_Counter in Hget. unfold Spec.occurrences, len in Hget.
  destruct (List.filter (fun x => bool_decide (x = k)) l) as [|y ys] eqn:E;
    [simpl in Hget; lia|].
  assert (In y (List.filter (fun x => bool_decide (x = k)) l)) as Hin
    by (rewrite E; by left).
  apply filter_In in Hin as [Hin Hy]. apply bool_decide_eq_true in Hy. subst.
  by apply list_elem_of_In.
Qed.
End CounterFacts.

(** ** Token-level scores *)

Lemma NoDup_distinct (l : list str) : NoDup (Spec.distinct l).
Proof.
  induction l as [|x l IH]; simpl; [constructor|].
  case_bool_decide as E; [done|]. constructor; [|done].
  intros Hin. apply E. clear -Hin.
  induction l as [|y l IH]; simpl in *; [done|].
  case_bool_decide; [right; by apply IH|].
  apply elem_of_cons in Hin as [->|Hin]; [by left|right; by apply IH].
Qed.

Lemma elem_of_distinct (x : str) (l : list str) : x ∈ l -> x ∈ Spec.distinct l.
Proof.
  induction l as [|y l IH]; [done|]. simpl. intros Hin.
  apply elem_of_cons in Hin as [->|Hin]; case_bool_decide; auto.
  - by left.
  - right. auto.
Qed.

Lemma num_same_spec (pred ref : list str) :
  counter_total (counter_and (Counter pred) (Counter ref)) = Spec.num_same pred ref.
Proof.
  rewrite (counter_total_keys _ (Spec.distinct pred)).
  - unfold Spec.num_same. induction (Spec.distinct pred) as [|t ts IH]; [done|].
    simpl. rewrite IH. f_equal.
    rewrite counter_get_and; rewrite !counter_get_Counter.
    + pose proof (occurrences_nonneg t pred). pose proof (occurrences_nonneg t ref). lia.
    + apply occurrences_nonneg.
  - apply NoDup_distinct.
  - intros k [v Hv]. rewrite lookup_counter_and in Hv.
    destruct (Counter pred !! k) as [cx|] eqn:E; [|done].
    apply elem_of_distinct. by apply Counter_lookup_elem in E as [? _].
Qed.

Lemma num_same_nonneg (pred ref : list str) : 0 <= Spec.num_same pred ref.
Proof.
  rewrite <- num_same_spec. apply counter_total_nonneg.
  intros k v Hv. apply counter_and_positive in Hv. lia.
Qed.

Lemma num_same_nil_l (ref : list str) : Spec.num_same [] ref = 0.
Proof. reflexivity. Qed.

Lemma num_same_nil_r (pred : list str) : Spec.num_same pred [] = 0.
Proof.
  unfold Spec.num_same. induction (Spec.distinct pred) as [|t ts IH]; [done|].
  simpl. rewrite IH. unfold Spec.occurrences at 2. simpl.
  pose proof (occurrences_nonneg t pred). unfold len. simpl. lia.
Qed.

Lemma py_max_Qmax (a b : Q) : py_max a b = Qmax a b.
Proof.
  unfold py_max, Qlt_b, Qmax, GenericMinMax.gmax.
  destruct (Qle_bool b a) eqn:E; simpl.
  - apply Qle_bool_iff in E. destruct (a ?= b)%Q eqn:C; try done.
    apply Qlt_alt in C. exfalso. apply (Qlt_not_le _ _ C E).
  - destruct (a ?= b)%Q eqn:C; try done.
    + apply Qeq_alt in C. assert (Qle_bool b a = true); [|congruence].
      apply Qle_bool_iff. rewrite C. apply Qle_refl.
    + apply Qgt_alt in C. assert (Qle_bool b a = true); [|congruence].
      apply Qle_bool_iff. by apply Qlt_le_weak.
Qed.

Lemma maximum_nonneg (l : list Q) : (0 <= Spec.maximum l)%Q.
Proof.
  destruct l as [|x l]; simpl; [apply Qle_refl|].
  assert (forall l, 0 <= Spec.maximum l)%Q as Hall.
  { clear. induction l as [|y l IH]; simpl; [apply Qle_refl|].
    eapply Qle_trans; [exact IH|]. apply Q.le_max_r. }
  eapply Qle_trans; [apply (Hall l)|]. apply Q.le_max_r.
Qed.

(** The divisions of one loop iteration succeed whenever the iteration is
    not skipped. *)
Lemma reference_divisions (pred ref : list str) :
  Spec.num_same pred ref <> 0 ->
  ~ (inject_Z (len pred) == 0)%Q
  /\ ~ (inject_Z (len ref) == 0)%Q
  /\ ~ (inject_Z (Spec.num_same pred ref) / inject_Z (len pred)
        + inject_Z (Spec.num_same pred ref) / inject_Z (len ref) == 0)%Q.
Proof.
  intros Hn. pose proof (num_same_nonneg pred ref) as Hge.
  assert (0 < len pred) as Hp.
  { destruct pred; [by rewrite num_same_nil_l in Hn|].
    rewrite len_cons. pose proof (len_nonneg pred). lia. }
  assert (0 < len ref) as Hr.
  { destruct ref; [by rewrite num_same_nil_r in Hn|].
    rewrite len_cons. pose proof (len_nonneg ref). lia. }
  split; [apply inject_Z_nonzero; lia|].
  split; [apply inject_Z_nonzero; lia|].
  assert (forall d : Z, 0 < d ->
            (0 < inject_Z (Spec.num_same pred ref) / inject_Z d)%Q) as Hpos.
  { intros d Hd. apply Qlt_shift_div_l.
    - replace 0%Q with (inject_Z 0) by done. rewrite <- Zlt_Qlt. lia.
    - rewrite Qmult_0_l. replace 0%Q with (inject_Z 0) by done. rewrite <- Zlt_Qlt. lia. }
  intros E. pose proof (Hpos _ Hp) as H1. pose proof (Hpos _ Hr) as H2.
  assert (0 < inject_Z (Spec.num_same pred ref) / inject_Z (len pred)
              + inject_Z (Spec.num_same pred ref) / inject_Z (len ref))%Q as H3.
  { replace 0%Q with (0 + 0)%Q by done. by apply Qplus_lt_le_compat; [|apply Qlt_le_weak]. }
  rewrite E in H3. by apply Qlt_irrefl in H3.
Qed.

Lemma token_level_loop_best (prediction : str) (fm : F1Score.scores) (gts : list str) :
  (0 <= F1Score.f1 fm)%Q -> (0 <= F1Score.precision fm)%Q -> (0 <= F1Score.recall fm)%Q ->
  exists m,
    F1Score.token_level_loop prediction fm gts = Ok m
    /\ (F1Score.f1 m == Qmax (F1Score.f1 fm) (Spec.best F1Score.f1 prediction gts))%Q
    /\ (F1Score.precision m
        == Qmax (F1Score.precision fm) (Spec.best F1Score.precision prediction gts))%Q
    /\ (F1Score.recall m
        == Qmax (F1Score.recall fm) (Spec.best F1Score.recall prediction gts))%Q.
Proof.
  revert fm. induction gts as [|g gts IH]; intros fm Hf Hp Hr.
  - exists fm. simpl. unfold Spec.best. simpl.
    rewrite !Q.max_l by done. done.
  - simpl. rewrite num_same_spec.
    fold (Spec.tokens prediction). fold (Spec.tokens g).
    unfold Spec.best. simpl. fold (Spec.best F1Score.f1 prediction gts).
    fold (Spec.best F1Score.precision prediction gts).
    fold (Spec.best F1Score.recall prediction gts).
    unfold Spec.reference_scores.
    destruct (Z.eqb_spec (Spec.num_same (Spec.tokens prediction) (Spec.tokens g)) 0) as [E|E].
    + destruct (IH fm Hf Hp Hr) as (m & Hm & H1 & H2 & H3).
      exists m. split; [done|]. simpl.
      rewrite !(Q.max_r 0) by apply maximum_nonneg. done.
    + destruct (reference_divisions _ _ E) as (D1 & D2 & D3).
      rewrite (true_div_ok _ _ D1), (true_div_ok _ _ D2). simpl.
      rewrite (true_div_ok _ _ D3). simpl.
      rewrite !py_max_Qmax.
      match goal with |- context [F1Score.token_level_loop _ ?fm' _] =>
        destruct (IH fm') as (m & Hm & H1 & H2 & H3) end.
      * simpl. eapply Qle_trans; [exact Hf|]. apply Q.le_max_r.
      * simpl. eapply Qle_trans; [exact Hp|]. apply Q.le_max_r.
      * simpl. eapply Qle_trans; [exact Hr|]. apply Q.le_max_r.
      * exists m. split; [done|]. simpl in *.
        rewrite H1, H2, H3.
        repeat split.
        -- rewrite (Q.max_comm _ (F1Score.f1 fm)). by rewrite Q.max_assoc.
        -- rewrite (Q.max_comm _ (F1Score.precision fm)). by rewrite Q.max_assoc.
        -- rewrite (Q.max_comm _ (F1Score.recall fm)). by rewrite Q.max_assoc.
Qed.

Lemma token_level_loop_empty_prediction (prediction : str) (fm : F1Score.scores)
      (gts : list str) :
  Spec.tokens prediction = [] -> F1Score.token_level_loop prediction fm gts = Ok fm.
Proof.
  intros Hp. induction gts as [|g gts IH]; [done|].
  simpl. rewrite num_same_spec. fold (Spec.tokens prediction). rewrite Hp.
  by rewrite num_same_nil_l.
Qed.

Lemma token_level_scores_total (prediction : str) (gts : list str) :
  exists m, F1Score.token_level_scores prediction gts = Ok m.
Proof.
  destruct (token_level_loop_best prediction F1Score.zero_scores gts)
    as (m & Hm & _); try apply Qle_refl.
  by exists m.
Qed.

(** C5. [token_level_scores] never raises.  Each component of its result is
    the maximum, over the references, of what the reference contributes:
    nothing when the count-aware multiset intersection [num_same] of the
    whitespace-split normalized tokens is empty, and otherwise
    [precision = num_same / len(pred_tokens)],
    [recall = num_same / len(ref_tokens)] and
    [f1 = 2 * precision * recall / (precision + recall)].  A prediction
    without tokens contributes zero against every reference and the result
    is all zeros. *)
Theorem token_level_scores_spec (prediction : str) (ground_truths : list str) :
  exists m,
    F1Score.token_level_scores prediction ground_truths = Ok m
    /\ (F1Score.f1 m == Spec.best F1Score.f1 prediction ground_truths)%Q
    /\ (F1Score.precision m == Spec.best F1Score.precision prediction ground_truths)%Q
    /\ (F1Score.recall m == Spec.best F1Score.recall prediction ground_truths)%Q
    /\ (forall g,
          counter_total (counter_and (Counter (Spec.tokens prediction))
                                     (Counter (Spec.tokens g)))
          = Spec.num_same (Spec.tokens prediction) (Spec.tokens g))
    /\ (Spec.tokens prediction = [] ->
        m = F1Score.zero_scores
        /\ forall g, Spec.reference_scores (Spec.tokens prediction) (Spec.tokens g)
                     = F1Score.zero_scores).
Proof.
  destruct (token_level_loop_best prediction F1Score.zero_scores ground_truths)
    as (m & Hm & H1 & H2 & H3); try apply Qle_refl.
  exists m. split; [exact Hm|].
  simpl in H1, H2, H3. rewrite Q.max_r in H1, H2, H3 by apply maximum_nonneg.
  repeat split; try done.
  - intros g. apply num_same_spec.
  - unfold F1Score.token_level_scores in Hm.
    rewrite token_level_loop_empty_prediction in Hm by done. congruence.
  - intros g. rewrite H. reflexivity.
Qed.

Example token_scores_example :
  F1Score.token_level_scores (s "the cat sat on the mat cat") [s "cat cat mat"; s "dog"]
  = Ok {| F1Score.f1 := 270 # 360; F1Score.precision := 3 # 5; F1Score.recall := 3 # 3 |}.
Proof. vm_compute. reflexivity. Qed.

(** ** The averaged scorers and the facade *)

Lemma token_level_scores_spec_witness :
  F1Score.token_level_scores (s "the") [s "cat"] = Ok F1Score.zero_scores.
Proof.
  destruct (token_level_scores_spec (s "the") [s "cat"]) as (m & Hm & _ & _ & _ & _ & Hz).
  destruct (Hz eq_refl) as [-> _]. exact Hm.
Defined.

Lemma map_result_total {A B : Type} (f : A -> result B) (l : list A) :
  (forall x, exists y, f x = Ok y) ->
  exists ys, map_result f l = Ok ys /\ List.length ys = List.length l.
Proof.
  intros Hf. induction l as [|x l (ys & Hys & Hlen)]; [by exists []|].
  destruct (Hf x) as [y Hy]. exists (y :: ys). simpl. rewrite Hy, Hys. simpl.
  by rewrite Hlen.
Qed.

Lemma mean_nonempty (l : list Q) : l <> [] -> exists v, BaseMetric.mean l = Ok v.
Proof. destruct l as [|x l]; [done|]. intros _. eexists. apply mean_cons. Qed.

Lemma exact_match_shape : scorer_shape "exact_match" ExactMatch.calculate_metric.
Proof.
  intros data. unfold ExactMatch.calculate_metric. fold (pairs_of data).
  destruct (pairs_of data) as [|pg l]; [done|].
  simpl. do 2 eexists. split; [done|].
  simpl. by rewrite length_map.
Qed.

Lemma contains_match_shape : scorer_shape "contains_match" ContainsMatch.calculate_metric.
Proof.
  intros data. unfold ContainsMatch.calculate_metric. fold (pairs_of data).
  destruct (pairs_of data) as [|pg l]; [done|].
  simpl. do 2 eexists. split; [done|].
  simpl. by rewrite length_map.
Qed.

Lemma token_scorer_shape (name : string) (proj : F1Score.scores -> Q) (data : Data) :
  let run : result metric_result :=
    let* l := map_result (fun pg => let* m := F1Score.token_level_scores (fst pg) (snd pg) in
                                    Ok (proj m)) (pairs_of data) in
    let* score := BaseMetric.mean l in
    Ok ({[ name := (score * 100)%Q ]}, l) in
  match pairs_of data with
  | [] => run = Raise ZeroDivisionError
  | _ :: _ => exists v l, run = Ok ({[ name := v ]}, l)
                          /\ List.length l = List.length (pairs_of data)
  end.
Proof.
  intros run. subst run.
  destruct (pairs_of data) as [|pg l] eqn:E; [done|].
  destruct (map_result_total
              (fun pg => let* m := F1Score.token_level_scores (fst pg) (snd pg) in Ok (proj m))
              (pg :: l)) as (ys & Hys & Hlen).
  { intros x. destruct (token_level_scores_total (fst x) (snd x)) as [m Hm].
    exists (proj m). by rewrite Hm. }
  rewrite Hys. simpl. destruct ys as [|y ys]; [done|].
  rewrite mean_cons. simpl. by do 2 eexists.
Qed.

Lemma f1_score_shape : scorer_shape "f1_score" F1Score.calculate_metric.
Proof. intros data. apply (token_scorer_shape "f1_score" F1Score.f1 data). Qed.

Lemma precision_shape : scorer_shape "precision" PrecisionScore.calculate_metric.
Proof. intros data. apply (token_scorer_shape "precision" F1Score.precision data). Qed.

Lemma recall_shape : scorer_shape "recall" RecallScore.calculate_metric.
Proof. intros data. apply (token_scorer_shape "recall" F1Score.recall data). Qed.

Lemma generation_metrics_empty (docs : list Document) (preds : list str) :
  pairs_of {| documents := docs; predictions := preds |} = [] ->
  Metrics.calculate_generation_metrics (Metrics.init docs) preds = Raise ZeroDivisionError.
Proof.
  intros E. unfold Metrics.calculate_generation_metrics, Metrics.metric_classes. simpl.
  pose proof (exact_match_shape {| documents := docs; predictions := preds |}) as H.
  rewrite E in H. by rewrite H.
Qed.

Lemma generation_metrics_nonempty (docs : list Document) (preds : list str) :
  pairs_of {| documents := docs; predictions := preds |} <> [] ->
  exists m, Metrics.calculate_generation_metrics (Metrics.init docs) preds = Ok m
            /\ dom m = generation_keys.
Proof.
  intros E. unfold Metrics.calculate_generation_metrics, Metrics.metric_classes. simpl.
  set (data := {| documents := docs; predictions := preds |}) in *.
  pose proof (exact_match_shape data) as H1.
  pose proof (f1_score_shape data) as H2.
  pose proof (precision_shape data) as H3.
  pose proof (recall_shape data) as H4.
  pose proof (contains_match_shape data) as H5.
  destruct (pairs_of data) as [|pg l]; [done|].
  destruct H1 as (v1 & l1 & -> & _), H2 as (v2 & l2 & -> & _), H3 as (v3 & l3 & -> & _),
           H4 as (v4 & l4 & -> & _), H5 as (v5 & l5 & -> & _).
  simpl. eexists. split; [done|].
  unfold Metrics.dict_update, generation_keys.
  rewrite !dom_union_L, !dom_singleton_L, dom_empty_L. set_solver.
Qed.

Lemma pairs_of_nil_iff (docs : list Document) (preds : list str) :
  pairs_of {| documents := docs; predictions := preds |} = [] <-> docs = [] \/ preds = [].
Proof.
  unfold pairs_of, BaseMetric.get_dataset_answer. simpl.
  destruct preds, docs; simpl; split; intros Hx; try done; auto.
  - destruct Hx; done.
Qed.

Lemma pairs_of_firstn (docs : list Document) (preds : list str) :
  let n := Nat.min (List.length docs) (List.length preds) in
  pairs_of {| documents := firstn n docs; predictions := firstn n preds |}
  = pairs_of {| documents := docs; predictions := preds |}.
Proof.
  intros n. unfold pairs_of, BaseMetric.get_dataset_answer. simpl.
  rewrite <- firstn_map, <- combine_firstn. apply firstn_all2.
  rewrite length_combine, length_map. lia.
Qed.

Lemma run_metrics_pairs (data data' : Data) :
  pairs_of data = pairs_of data' ->
  forall cfg,
    Metrics.run_metrics cfg data Metrics.metric_classes ∅
    = Metrics.run_metrics cfg data' Metrics.metric_classes ∅.
Proof.
  intros E cfg. unfold Metrics.metric_classes. simpl.
  unfold ExactMatch.calculate_metric, F1Score.calculate_metric,
    PrecisionScore.calculate_metric, RecallScore.calculate_metric,
    ContainsMatch.calculate_metric.
  fold (pairs_of data). fold (pairs_of data'). by rewrite E.
Qed.

(** C1, as amended.  [calculate_generation_metrics] does not compare the two
    lengths.  The scorers pair predictions with documents by [zip], so the
    outcome is that of the two lists cut to their common length: a result
    mapping whenever both lists are non-empty, whether or not the lengths
    agree, and [ZeroDivisionError] when one of them is empty. *)
Theorem generation_metrics_pairing (docs : list Document) (preds : list str) :
  Metrics.calculate_generation_metrics (Metrics.init docs) preds
  = Metrics.calculate_generation_metrics
      (Metrics.init (firstn (Nat.min (List.length docs) (List.length preds)) docs))
      (firstn (Nat.min (List.length docs) (List.length preds)) preds)
  /\ match docs, preds with
     | _ :: _, _ :: _ =>
         exists m, Metrics.calculate_generation_metrics (Metrics.init docs) preds = Ok m
     | _, _ =>
         Metrics.calculate_generation_metrics (Metrics.init docs) preds
         = Raise ZeroDivisionError
     end.
Proof.
  split.
  - unfold Metrics.calculate_generation_metrics.
    cbn [Metrics.config Metrics.init Metrics.documents_of].
    apply (run_metrics_pairs _ _ (eq_sym (pairs_of_firstn docs preds))).
  - destruct docs as [|d docs].
    { apply generation_metrics_empty, pairs_of_nil_iff. by left. }
    destruct preds as [|p preds].
    { apply generation_metrics_empty, pairs_of_nil_iff. by right. }
    destruct (generation_metrics_nonempty (d :: docs) (p :: preds)) as (m & Hm & _).
    + rewrite pairs_of_nil_iff. intros [?|?]; done.
    + by exists m.
Qed.

(** C1 as stated fails: two documents and one prediction give a result
    mapping, not an error. *)
Lemma count_mismatch_not_rejected :
  len [s "Paris"] <> len [doc_hit_first; doc_hit_second]
  /\ is_ok (Metrics.calculate_generation_metrics
              (Metrics.init [doc_hit_first; doc_hit_second]) [s "Paris"]) = true.
Proof. split; [done|]. vm_compute. reflexivity. Qed.

(** C8. On an empty batch each of the five averaged scorers, and with them
    the facade, raises [ZeroDivisionError]; none returns a value. *)
Theorem empty_batch_rejected :
  ExactMatch.calculate_metric {| documents := []; predictions := [] |}
  = Raise ZeroDivisionError
  /\ F1Score.calculate_metric {| documents := []; predictions := [] |}
     = Raise ZeroDivisionError
  /\ PrecisionScore.calculate_metric {| documents := []; predictions := [] |}
     = Raise ZeroDivisionError
  /\ RecallScore.calculate_metric {| documents := []; predictions := [] |}
     = Raise ZeroDivisionError
  /\ ContainsMatch.calculate_metric {| documents := []; predictions := [] |}
     = Raise ZeroDivisionError
  /\ Metrics.calculate_generation_metrics (Metrics.init []) [] = Raise ZeroDivisionError.
Proof. repeat split. Qed.

(** C10. Whenever [calculate_generation_metrics] returns, the keys of the
    mapping are exactly [exact_match], [f1_score], [precision], [recall] and
    [contains_match]; [bleu_score] is not among them. *)
Theorem generation_metrics_keys (docs : list Document) (preds : list str)
        (m : gmap string Q) :
  Metrics.calculate_generation_metrics (Metrics.init docs) preds = Ok m ->
  dom m = {[ "exact_match"%string; "f1_score"%string; "precision"%string;
             "recall"%string; "contains_match"%string ]}
  /\ "bleu_score"%string ∉ dom m.
Proof.
  intros Hm.
  destruct (pairs_of {| documents := docs; predictions := preds |}) as [|pg l] eqn:E.
  - rewrite generation_metrics_empty in Hm by done. done.
  - destruct (generation_metrics_nonempty docs preds) as (m' & Hm' & Hdom).
    { by rewrite E. }
    rewrite Hm in Hm'. injection Hm' as <-.
    split; [exact Hdom|]. rewrite Hdom. unfold generation_keys.
    rewrite !elem_of_union, !elem_of_singleton. intuition discriminate.
Qed.

Lemma generation_metrics_keys_witness :
  exists m,
    Metrics.calculate_generation_metrics (Metrics.init [doc_hit_first]) [s "Paris"] = Ok m
    /\ dom m = {[ "exact_match"%string; "f1_score"%string; "precision"%string;
                  "recall"%string; "contains_match"%string ]}
    /\ "bleu_score"%string ∉ dom m.
Proof.
  eexists. split; [vm_compute; reflexivity|].
  apply (generation_metrics_keys [doc_hit_first] [s "Paris"]).
  vm_compute. reflexivity.
Defined.

(** ** Contains-Match *)

Lemma str_contains_nil (haystack : str) : str_contains [] haystack = true.
Proof. by destruct haystack. Qed.

(** C9. If some reference normalizes to the empty string,
    [calculate_contains] returns 1.0 whatever the prediction is: the empty
    string is a substring of every normalized prediction. *)
Theorem contains_empty_reference (prediction : str) (golden_answers : list str) :
  (exists answer, In answer golden_answers /\ normalize_answer answer = []) ->
  (forall haystack, str_contains [] haystack = true)
  /\ ContainsMatch.calculate_contains prediction golden_answers = 1%Q.
Proof.
  intros (answer & Hin & Hempty). split; [apply str_contains_nil|].
  unfold ContainsMatch.calculate_contains.
  induction golden_answers as [|g gs IH]; [done|]. simpl.
  destruct (str_contains (normalize_answer g) (normalize_answer prediction)) eqn:E; [done|].
  destruct Hin as [->|Hin]; [|by apply IH].
  by rewrite Hempty, str_contains_nil in E.
Qed.

Lemma contains_empty_reference_witness :
  (forall haystack, str_contains [] haystack = true)
  /\ ContainsMatch.calculate_contains (s "Lyon") [s "Paris"; s "...the!"] = 1%Q.
Proof.
  apply (contains_empty_reference (s "Lyon") [s "Paris"; s "...the!"]).
  exists (s "...the!"). split; [right; left; reflexivity | reflexivity].
Defined.

(** ** BLEU with a non-positive order *)

Lemma py_range_empty (lo hi : Z) : hi <= lo -> py_range lo hi = [].
Proof. intros Hle. unfold py_range. replace (Z.to_nat (hi - lo)) with O by lia. done. Qed.

Lemma get_ngrams_nonpositive (segment : list str) (n : Z) :
  n <= 0 -> BLEUScore._get_ngrams segment n = ∅.
Proof. intros Hn. unfold BLEUScore._get_ngrams. by rewrite py_range_empty by lia. Qed.

Lemma corpus_step_nonpositive (self : BLEUScore.t) (a : BLEUScore.acc)
      (references : list (list str)) (translation : list str) :
  BLEUScore.max_order self <= 0 ->
  BLEUScore.corpus_step self a references translation = Raise ValueError
  \/ exists a', BLEUScore.corpus_step self a references translation = Ok a'.
Proof.
  intros Hn. unfold BLEUScore.corpus_step.
  destruct references as [|r rs]; [by left|right].
  simpl. rewrite !get_ngrams_nonpositive by done.
  rewrite counter_and_empty_l. unfold BLEUScore.add_matches. rewrite map_fold_empty.
  unfold BLEUScore.add_possible. rewrite py_range_empty by lia. simpl.
  by eexists.
Qed.

Lemma corpus_loop_nonpositive (self : BLEUScore.t) (a : BLEUScore.acc)
      (pairs : list (list (list str) * list str)) :
  BLEUScore.max_order self <= 0 ->
  BLEUScore.corpus_loop self a pairs = Raise ValueError
  \/ exists a', BLEUScore.corpus_loop self a pairs = Ok a'.
Proof.
  intros Hn. revert a. induction pairs as [|[references translation] pairs IH]; intros a.
  - right. by exists a.
  - simpl. destruct (corpus_step_nonpositive self a references translation Hn)
      as [->|[a' ->]]; [by left|]. simpl. apply IH.
Qed.

Lemma compute_bleu_nonpositive (self : BLEUScore.t)
      (reference_corpus : list (list (list str))) (translation_corpus : list (list str)) :
  BLEUScore.max_order self <= 0 ->
  BLEUScore.compute_bleu self reference_corpus translation_corpus = Raise ValueError.
Proof.
  intros Hn. unfold BLEUScore.compute_bleu.
  destruct (corpus_loop_nonpositive self
              {| BLEUScore.matches_by_order := repeat 0 (Z.to_nat (BLEUScore.max_order self));
                 BLEUScore.possible_matches_by_order :=
                   repeat 0 (Z.to_nat (BLEUScore.max_order self));
                 BLEUScore.reference_length := 0;
                 BLEUScore.translation_length := 0 |}
              (combine reference_corpus translation_corpus) Hn) as [->|[a' ->]]; [done|].
  simpl. unfold BLEUScore.fill_precisions. rewrite py_range_empty by lia.
  replace (Z.to_nat (BLEUScore.max_order self)) with O by lia. done.
Qed.

(** C3, as amended.  With [bleu_max_order <= 0] the constructor succeeds and
    stores the value as given; the failure comes at computation time:
    [compute_bleu], and so [calculate_metric], raises [ValueError] on every
    input. *)
Theorem bleu_max_order_unchecked (cfg : Config) (n : Z) :
  bleu_max_order cfg = Some n -> n <= 0 ->
  exists self,
    BLEUScore.init cfg = Ok self
    /\ BLEUScore.max_order self = n
    /\ (forall reference_corpus translation_corpus,
          BLEUScore.compute_bleu self reference_corpus translation_corpus = Raise ValueError)
    /\ (forall data, BLEUScore.calculate_metric self data = Raise ValueError).
Proof.
  intros Hcfg Hn. eexists. split; [reflexivity|]. simpl. rewrite Hcfg. simpl.
  split; [done|]. split.
  - intros. by apply compute_bleu_nonpositive.
  - intros. unfold BLEUScore.calculate_metric.
    by rewrite compute_bleu_nonpositive.
Qed.

Lemma bleu_max_order_unchecked_witness :
  exists self,
    BLEUScore.init config_order_zero = Ok self
    /\ BLEUScore.max_order self = 0
    /\ (forall reference_corpus translation_corpus,
          BLEUScore.compute_bleu self reference_corpus translation_corpus = Raise ValueError)
    /\ (forall data, BLEUScore.calculate_metric self data = Raise ValueError).
Proof.
  apply (bleu_max_order_unchecked config_order_zero 0); [reflexivity | lia].
Defined.

(** C3 as stated fails: the constructor returns a scorer for
    [bleu_max_order = 0]. *)
Lemma bleu_constructor_accepts_zero :
  bleu_max_order config_order_zero = Some 0
  /\ 0 <= 0
  /\ is_ok (BLEUScore.init config_order_zero) = true.
Proof. repeat split. lia. Qed.

(** ** Normalization *)

Lemma keep_char_cases (c : ascii) :
  keep_char c = true -> c = " "%char \/ word_char c = true.
Proof.
  destruct c as [[] [] [] [] [] [] [] []]; vm_compute; intros; auto; discriminate.
Qed.

Lemma word_char_facts (c : ascii) :
  word_char c = true ->
  keep_char c = true /\ is_word c = true /\ is_space c = false /\ lower_char c = c.
Proof.
  destruct c as [[] [] [] [] [] [] [] []]; vm_compute; intros; auto; discriminate.
Qed.

Lemma keep_char_lower (c : ascii) : keep_char c = true -> lower_char c = c.
Proof.
  intros [->|Hw]%keep_char_cases; [done|]. by apply word_char_facts.
Qed.

Lemma word_next_is_word (w rest : str) : word w -> next_is_word (w ++ rest) = true.
Proof.
  intros [Hne Hall]. destruct w as [|c w]; [done|]. simpl.
  apply Forall_cons in Hall as [Hc _]. by apply word_char_facts.
Qed.

Lemma word_last_is_word (w : str) : word w -> next_is_word (rev w) = true.
Proof.
  intros [Hne Hall]. destruct (rev w) as [|c r] eqn:E.
  - apply (f_equal (@rev ascii)) in E. rewrite rev_involutive in E. done.
  - simpl. assert (In c w) as Hin.
    { apply in_rev. rewrite E. by left. }
    rewrite Forall_forall in Hall. apply word_char_facts, Hall. by apply list_elem_of_In.
Qed.

Lemma strip_prefix_Some (p t r : str) : strip_prefix p t = Some r <-> t = p ++ r.
Proof.
  revert t. induction p as [|a p IH]; intros t; simpl.
  - split; [by intros [= ->]|by intros ->].
  - destruct t as [|b t]; [split; intros; discriminate|].
    destruct (Ascii.eqb_spec a b) as [->|Hne].
    + rewrite IH. split; [by intros ->|by intros [= ->]].
    + split; [done|]. intros [= -> _]. done.
Qed.

(** An alternative matches at the start of a token exactly when it is the
    whole token. *)
Lemma try_alt_word (alt w rest : str) :
  word alt -> word w -> next_is_word rest = false ->
  try_alt false alt (w ++ rest)
  = if bool_decide (alt = w) then Some (List.length alt) else None.
Proof.
  intros Halt Hw Hrest. unfold try_alt, boundary.
  rewrite (word_next_is_word w rest Hw), (word_last_is_word alt Halt). simpl.
  destruct (strip_prefix alt (w ++ rest)) as [r|] eqn:E.
  - apply strip_prefix_Some in E. case_bool_decide as Eq.
    + subst. apply app_inv_head in E. subst. by rewrite Hrest.
    + apply app_eq_app in E as [l [[-> ->]|[-> ->]]].
      * destruct l as [|c l]; [by rewrite app_nil_r in Eq|].
        assert (word (c :: l)) as Hl.
        { split; [done|]. destruct Hw as [_ Hw]. by apply Forall_app in Hw as [_ ?]. }
        by rewrite (word_next_is_word _ _ Hl).
      * destruct l as [|c l]; [by rewrite app_nil_r in Eq|].
        assert (word (c :: l)) as Hl.
        { split; [done|]. destruct Halt as [_ Ha]. by apply Forall_app in Ha as [_ ?]. }
        by rewrite (word_next_is_word _ _ Hl) in Hrest.
  - case_bool_decide as Eq; [|done]. subst.
    assert (strip_prefix w (w ++ rest) = Some rest) by by apply strip_prefix_Some.
    congruence.
Qed.

Lemma articles_are_words : Forall word articles.
Proof.
  repeat constructor; try done.
Qed.

Lemma first_alt_word (alts : list str) (w rest : str) :
  Forall word alts -> word w -> next_is_word rest = false ->
  first_alt false alts (w ++ rest)
  = if bool_decide (w ∈ alts) then Some (List.length w) else None.
Proof.
  intros Hart Hw Hrest. induction Hart as [|alt alts Halt Halts IH].
  - cbn [first_alt]. by rewrite bool_decide_eq_false_2 by apply not_elem_of_nil.
  - cbn [first_alt]. rewrite (try_alt_word alt w rest Halt Hw Hrest).
    destruct (decide (alt = w)) as [->|Hne].
    + rewrite bool_decide_eq_true_2 by done.
      rewrite bool_decide_eq_true_2; [done|by left].
    + rewrite (bool_decide_eq_false_2 (alt = w)) by done. rewrite IH.
      destruct (decide (w ∈ alts)) as [Hin|Hin].
      * rewrite !bool_decide_eq_true_2; [done|by right|done].
      * rewrite !bool_decide_eq_false_2; [done| |done].
        intros [->|?]%elem_of_cons; done.
Qed.

Lemma match_article_word (w rest : str) :
  word w -> next_is_word rest = false ->
  match_article false (w ++ rest)
  = if is_article w then Some (List.length w) else None.
Proof. apply first_alt_word, articles_are_words. Qed.

Lemma match_article_after_word (text : str) :
  next_is_word text = true -> match_article true text = None.
Proof.
  intros Hn. unfold match_article, articles. simpl. unfold try_alt, boundary.
  by rewrite Hn.
Qed.

Lemma match_article_space (prev : bool) (rest : str) :
  match_article prev (" "%char :: rest) = None.
Proof. by destruct prev. Qed.

(** The scan over one token: matched characters are passed over, unmatched
    ones are copied. *)
Lemma sub_articles_skip (u rest : str) :
  Forall (fun c => word_char c = true) u ->
  sub_articles true (List.length u) (u ++ rest) = sub_articles true O rest.
Proof.
  induction 1 as [|c u Hc Hu IH]; [done|]. simpl.
  apply word_char_facts in Hc as (_ & -> & _). exact IH.
Qed.

Lemma sub_articles_copy (u rest : str) :
  Forall (fun c => word_char c = true) u ->
  sub_articles true O (u ++ rest) = u ++ sub_articles true O rest.
Proof.
  induction 1 as [|c u Hc Hu IH]; [done|].
  apply word_char_facts in Hc as (_ & Hc & _).
  cbn [app sub_articles]. rewrite match_article_after_word by done.
  by rewrite Hc, IH.
Qed.

Lemma sub_articles_word (w rest : str) :
  word w -> next_is_word rest = false ->
  sub_articles false O (w ++ rest)
  = (if is_article w then [" "%char] else w) ++ sub_articles true O rest.
Proof.
  intros Hw Hrest. pose proof (match_article_word w rest Hw Hrest) as Hm.
  destruct Hw as [Hne Hall]. destruct w as [|c w]; [done|].
  apply Forall_cons in Hall as [Hc Hall].
  apply word_char_facts in Hc as (_ & Hc & _).
  cbn [app sub_articles] in *. rewrite Hm, Hc.
  destruct (is_article (c :: w)).
  - simpl. by rewrite sub_articles_skip.
  - simpl. by rewrite sub_articles_copy.
Qed.

Lemma sub_articles_space (prev : bool) (rest : str) :
  sub_articles prev O (" "%char :: rest) = " "%char :: sub_articles false O rest.
Proof. cbn [sub_articles]. by rewrite match_article_space. Qed.

(** [split] over one token. *)
Lemma split_from_word (cur u rest : str) :
  Forall (fun c => word_char c = true) u ->
  split_from cur (u ++ rest) = split_from (cur ++ u) rest.
Proof.
  intros Hu. revert cur. induction Hu as [|c u Hc Hu IH]; intros cur.
  - by rewrite app_nil_r.
  - apply word_char_facts in Hc as (_ & _ & Hc & _).
    cbn [app split_from]. rewrite Hc, IH. by rewrite <- app_assoc.
Qed.

Lemma split_word_end (w : str) : word w -> split w = [w].
Proof.
  intros [Hne Hall]. unfold split.
  rewrite <- (app_nil_r w) at 1. rewrite split_from_word by done. simpl.
  by destruct w.
Qed.

Lemma split_word_space (w rest : str) :
  word w -> split (w ++ " "%char :: rest) = w :: split rest.
Proof.
  intros [Hne Hall]. unfold split. rewrite split_from_word by done. simpl.
  by destruct w.
Qed.

Lemma split_space (rest : str) : split (" "%char :: rest) = split rest.
Proof. reflexivity. Qed.

(** A clean text is empty, starts with a space, or starts with a token that
    ends the text or is followed by a space. *)
Lemma clean_decompose (text : str) :
  clean text ->
  text = []
  \/ (exists rest, text = " "%char :: rest /\ clean rest)
  \/ (exists w, word w /\ (text = w \/ exists rest, text = w ++ " "%char :: rest /\ clean rest)).
Proof.
  induction 1 as [|c text Hc Htext IH]; [by left|right].
  apply keep_char_cases in Hc as [->|Hc]; [left; by exists text|right].
  destruct IH as [->|[(rest & -> & Hrest)|(w & [Hne Hw] & Hcase)]].
  - exists [c]. split; [split; [done|by constructor]|by left].
  - exists [c]. split; [split; [done|by constructor]|right]. by exists rest.
  - exists (c :: w). split; [split; [done|by constructor]|].
    destruct Hcase as [->|(rest & -> & Hrest)]; [by left|right]. by exists rest.
Qed.

(** Removing the articles from a clean text removes the article tokens and
    keeps the others. *)
Lemma split_remove_articles (text : str) :
  clean text ->
  split (remove_articles text)
  = List.filter (fun w => negb (is_article w)) (split text).
Proof.
  unfold remove_articles.
  induction text as [text IH] using (induction_ltof1 _ (@List.length ascii)).
  unfold ltof in IH. intros Hclean.
  destruct (clean_decompose text Hclean)
    as [->|[(rest & -> & Hrest)|(w & Hw & [->|(rest & -> & Hrest)])]].
  - done.
  - rewrite sub_articles_space, !split_space. apply IH; [simpl; lia|done].
  - rewrite <- (app_nil_r w) at 1. rewrite sub_articles_word by done.
    rewrite (split_word_end w Hw). simpl. rewrite app_nil_r.
    destruct (is_article w); simpl; [done|]. by apply split_word_end.
  - rewrite sub_articles_word by done. rewrite sub_articles_space.
    rewrite (split_word_space w rest Hw). simpl.
    destruct (is_article w); simpl.
    + rewrite !split_space. apply IH; [rewrite length_app; simpl; lia|done].
    + rewrite (split_word_space w _ Hw). f_equal.
      apply IH; [rewrite length_app; simpl; lia|done].
Qed.

Lemma remove_punctuation_clean (text : str) : clean (remove_punctuation text).
Proof.
  unfold clean, remove_punctuation. apply Forall_forall. intros c Hc.
  apply list_elem_of_In, filter_In in Hc. tauto.
Qed.

Lemma normalize_answer_words (x : str) :
  normalize_answer x = join (s " ") (norm_words x).
Proof.
  unfold normalize_answer, white_space_fix, norm_words.
  by rewrite split_remove_articles by apply remove_punctuation_clean.
Qed.

Lemma split_from_words (cur text : str) :
  Forall (fun c => word_char c = true) cur -> clean text ->
  Forall word (split_from cur text).
Proof.
  intros Hcur Hclean. revert cur Hcur.
  induction Hclean as [|c text Hc Htext IH]; intros cur Hcur.
  - simpl. destruct cur; [constructor|]. constructor; [by split|constructor].
  - simpl. apply keep_char_cases in Hc as [->|Hc].
    + simpl. destruct cur as [|a cur].
      * apply IH. constructor.
      * constructor; [by split|]. apply IH. constructor.
    + pose proof (word_char_facts c Hc) as (_ & _ & -> & _).
      apply IH. apply Forall_app. split; [done|]. by constructor.
Qed.

Lemma norm_words_words (x : str) :
  Forall word (norm_words x) /\ Forall (fun w => is_article w = false) (norm_words x).
Proof.
  unfold norm_words.
  pose proof (split_from_words [] _ (List.Forall_nil _)
                (remove_punctuation_clean (lower x))) as Hall.
  fold (split (remove_punctuation (lower x))) in Hall.
  rewrite Forall_forall in Hall. split; apply Forall_forall; intros w Hw;
    apply list_elem_of_In, filter_In in Hw as [Hin Hart].
  - apply Hall. by apply list_elem_of_In.
  - by apply negb_true_iff.
Qed.

Lemma join_words_clean (ws : list str) : Forall word ws -> clean (join (s " ") ws).
Proof.
  induction 1 as [|w ws [_ Hw] Hws IH]; [constructor|].
  assert (clean w) as Hcw.
  { eapply Forall_impl; [exact Hw|]. intros c Hc. by apply word_char_facts. }
  destruct ws as [|w' ws]; [done|].
  cbn [join]. apply Forall_app. split; [done|].
  apply Forall_app. split; [by repeat constructor|done].
Qed.

Lemma lower_clean (text : str) : clean text -> lower text = text.
Proof.
  induction 1 as [|c text Hc Htext IH]; [done|].
  unfold lower in *. simpl. by rewrite IH, keep_char_lower.
Qed.

Lemma remove_punctuation_id (text : str) : clean text -> remove_punctuation text = text.
Proof.
  induction 1 as [|c text Hc Htext IH]; [done|].
  unfold remove_punctuation in *. simpl. by rewrite Hc, IH.
Qed.

Lemma join_space_cons (w w' : str) (ws : list str) :
  join (s " ") (w :: w' :: ws) = w ++ " "%char :: join (s " ") (w' :: ws).
Proof. reflexivity. Qed.

Lemma split_join_words (ws : list str) : Forall word ws -> split (join (s " ") ws) = ws.
Proof.
  induction 1 as [|w ws Hw Hws IH]; [done|].
  destruct ws as [|w' ws]; [by apply split_word_end|].
  by rewrite join_space_cons, split_word_space, IH.
Qed.

Lemma filter_all {A : Type} (f : A -> bool) (l : list A) :
  Forall (fun x => f x = true) l -> List.filter f l = l.
Proof. induction 1 as [|x l Hx Hl IH]; [done|]. simpl. by rewrite Hx, IH. Qed.

(** C6. [normalize_answer] is idempotent. *)
Theorem normalize_answer_idempotent (x : str) :
  normalize_answer (normalize_answer x) = normalize_answer x.
Proof.
  rewrite (normalize_answer_words x).
  destruct (norm_words_words x) as [Hwords Hart].
  pose proof (join_words_clean _ Hwords) as Hclean.
  unfold normalize_answer, white_space_fix.
  rewrite (lower_clean _ Hclean), (remove_punctuation_id _ Hclean).
  rewrite (split_remove_articles _ Hclean), (split_join_words _ Hwords).
  rewrite filter_all; [done|].
  eapply Forall_impl; [exact Hart|]. intros w Hw. simpl in Hw. by rewrite Hw.
Qed.

Example normalize_twice :
  normalize_answer (normalize_answer (s "  The THE  an, a. than _a_ the-atre "))
  = s "than theatre".
Proof. reflexivity. Qed.

(** ** BLEU: n-gram counts *)

Lemma count_len_empty (o : Z) : count_len o ∅ = 0.
Proof. unfold count_len. by rewrite map_fold_empty. Qed.

Lemma count_len_incr (o : Z) (k : list str) (c : gmap (list str) Z) :
  count_len o (counter_incr k c) = count_len o c + (if len k =? o then 1 else 0).
Proof.
  unfold counter_incr, counter_get, count_len.
  destruct (c !! k) as [v|] eqn:E; simpl.
  - rewrite <- (insert_delete_eq c k (v + 1)).
    rewrite map_fold_insert_L; [|intros; repeat case_match; lia|apply lookup_delete_eq].
    rewrite (map_fold_delete_L _ _ k v c); [|intros; repeat case_match; lia|done].
    destruct (len k =? o); lia.
  - rewrite map_fold_insert_L; [|intros; repeat case_match; lia|done].
    destruct (len k =? o); lia.
Qed.

Lemma ngrams_ok_empty (n : Z) : ngrams_ok n ∅.
Proof. intros k v. by rewrite lookup_empty. Qed.

Lemma ngrams_ok_incr (n : Z) (k : list str) (c : gmap (list str) Z) :
  1 <= len k <= n -> ngrams_ok n c -> ngrams_ok n (counter_incr k c).
Proof.
  intros Hk Hc k' v'. unfold counter_incr, counter_get.
  destruct (decide (k = k')) as [<-|Hne].
  - rewrite lookup_insert_eq. intros [= <-]. split; [done|].
    destruct (c !! k) as [v|] eqn:E; simpl; [|lia].
    destruct (Hc k v E). lia.
  - rewrite lookup_insert_ne by done. apply Hc.
Qed.

Lemma len_slice {A : Type} (l : list A) (i o : Z) :
  0 <= i -> 0 <= o -> i + o <= len l -> len (slice l i (i + o)) = o.
Proof.
  intros Hi Ho Hlen. unfold slice, slice_bound.
  destruct (Z.ltb_spec i 0); [lia|]. destruct (Z.ltb_spec (i + o) 0); [lia|].
  unfold len in *. rewrite length_firstn, length_skipn. lia.
Qed.

(** The inner loop of [_get_ngrams]: the windows of one order. *)
Lemma ngrams_of_order (segment : list str) (n order : Z) (c : gmap (list str) Z) :
  1 <= order <= n -> ngrams_ok n c ->
  let c' := fold_left (fun ngram_counts i =>
                         counter_incr (slice segment i (i + order)) ngram_counts)
                      (py_range 0 (len segment - order + 1)) c in
  ngrams_ok n c'
  /\ forall o, count_len o c'
               = count_len o c
                 + (if order =? o then Z.max 0 (len segment - order + 1) else 0).
Proof.
  intros Horder Hc. unfold py_range. rewrite Z.sub_0_r.
  assert (forall k (c : gmap (list str) Z),
            (Z.of_nat k <= Z.max 0 (len segment - order + 1)) -> ngrams_ok n c ->
            let c' := fold_left (fun ngram_counts i =>
                         counter_incr (slice segment i (i + order)) ngram_counts)
                      (List.map (fun i => 0 + Z.of_nat i) (seq 0 k)) c in
            ngrams_ok n c'
            /\ forall o, count_len o c'
                         = count_len o c + (if order =? o then Z.of_nat k else 0)) as Hgen.
  { clear c Hc. induction k as [|k IH]; intros c Hk Hc.
    - simpl. split; [done|]. intros o. destruct (order =? o); lia.
    - rewrite seq_S, map_app, fold_left_app. simpl.
      destruct (IH c) as [Hok Hcount]; [lia|done|].
      assert (len (slice segment (0 + Z.of_nat k) (0 + Z.of_nat k + order)) = order)
        as Hlen by (apply len_slice; lia).
      split.
      + apply ngrams_ok_incr; [lia|done].
      + intros o. rewrite count_len_incr, Hcount, Hlen.
        destruct (order =? o); lia. }
  destruct (Hgen (Z.to_nat (len segment - order + 1)) c) as [Hok Hcount]; [lia|done|].
  split; [done|]. intros o. rewrite Hcount. destruct (order =? o); lia.
Qed.

(** The n-gram counter of a segment. *)
Lemma get_ngrams_counts (segment : list str) (n : Z) :
  ngrams_ok n (BLEUScore._get_ngrams segment n)
  /\ forall o, count_len o (BLEUScore._get_ngrams segment n)
               = if (1 <=? o) && (o <=? n) then Z.max 0 (len segment - o + 1) else 0.
Proof.
  unfold BLEUScore._get_ngrams, py_range.
  replace (n + 1 - 1) with n by lia.
  assert (forall k, Z.of_nat k <= Z.max 0 n ->
            let c := fold_left
                       (fun ngram_counts order =>
                          fold_left (fun ngram_counts i =>
                                       counter_incr (slice segment i (i + order)) ngram_counts)
                                    (List.map (fun i => 0 + Z.of_nat i)
                                       (seq 0 (Z.to_nat (len segment - order + 1 - 0))))
                                    ngram_counts)
                       (List.map (fun i => 1 + Z.of_nat i) (seq 0 k)) ∅ in
            ngrams_ok n c
            /\ forall o, count_len o c
                         = if (1 <=? o) && (o <=? Z.of_nat k)
                           then Z.max 0 (len segment - o + 1) else 0) as Hgen.
  { induction k as [|k IH]; intros Hk.
    - simpl. split; [apply ngrams_ok_empty|]. intros o. rewrite count_len_empty.
      destruct (Z.leb_spec 1 o), (Z.leb_spec o (Z.of_nat 0)); simpl; lia.
    - rewrite seq_S, map_app, fold_left_app. simpl.
      destruct IH as [Hok Hcount]; [lia|].
      pose proof (ngrams_of_order segment n (1 + Z.of_nat k) _ ltac:(lia) Hok) as [Hok' Hcount'].
      unfold py_range in Hok', Hcount'. split; [exact Hok'|].
      intros o. rewrite Hcount', Hcount.
      destruct (Z.eqb_spec (1 + Z.of_nat k) o), (Z.leb_spec 1 o),
        (Z.leb_spec o (Z.of_nat k)), (Z.leb_spec o (Z.of_nat (S k))); simpl; lia. }
  destruct (Z.le_gt_cases n 0) as [Hn|Hn].
  - replace (Z.to_nat n) with O by lia. simpl. split; [apply ngrams_ok_empty|].
    intros o. rewrite count_len_empty.
    destruct (Z.leb_spec 1 o), (Z.leb_spec o n); simpl; lia.
  - destruct (Hgen (Z.to_nat n)) as [Hok Hcount]; [lia|]. split; [exact Hok|].
    intros o. rewrite Hcount. rewrite Z2Nat.id by lia. done.
Qed.

Lemma counter_or_empty_l (n : Z) (c : gmap (list str) Z) :
  ngrams_ok n c -> counter_or ∅ c = c.
Proof.
  intros Hc. apply map_eq. intros k. unfold counter_or.
  rewrite lookup_merge, lookup_empty. unfold diag_None.
  destruct (c !! k) as [v|] eqn:E; [|done]. simpl.
  destruct (Hc k v E) as [_ Hv]. unfold keep_positive.
  destruct (Z.ltb_spec 0 (Z.max 0 v)); [f_equal; lia|lia].
Qed.

Lemma counter_and_self (n : Z) (c : gmap (list str) Z) :
  ngrams_ok n c -> counter_and c c = c.
Proof.
  intros Hc. apply map_eq. intros k. rewrite lookup_counter_and. unfold counter_get.
  destruct (c !! k) as [v|] eqn:E; [|done]. simpl.
  destruct (Hc k v E) as [_ Hv]. unfold keep_positive.
  destruct (Z.ltb_spec 0 (Z.min v v)); [f_equal; lia|lia].
Qed.

(** ** BLEU: the accumulators *)

Lemma list_add_at_pos (l : list Z) (i : nat) (x v : Z) :
  l !! i = Some x -> list_add_at l (Z.of_nat i) v = Ok (<[i := x + v]> l).
Proof.
  intros Hx. unfold list_add_at, index_pos.
  pose proof (lookup_lt_Some _ _ _ Hx) as Hlt. unfold len.
  destruct (Z.leb_spec 0 (Z.of_nat i)); [|lia].
  destruct (Z.ltb_spec (Z.of_nat i) (Z.of_nat (List.length l))); [|lia].
  simpl. by rewrite Nat2Z.id, Hx.
Qed.

Lemma bumped_unique (w : nat -> Z) (l l1 l2 : list Z) :
  bumped w l l1 -> bumped w l l2 -> l1 = l2.
Proof.
  intros [Hlen1 H1] [Hlen2 H2]. apply list_eq. intros i.
  destruct (l !! i) as [x|] eqn:E.
  - by rewrite (H1 i x E), (H2 i x E).
  - apply lookup_ge_None in E.
    rewrite (proj2 (lookup_ge_None l1 i)), (proj2 (lookup_ge_None l2 i)); [done|lia|lia].
Qed.

Lemma add_matches_list (kvs : list (list str * Z)) (mbo : list Z) :
  Forall (fun kv => 1 <= len (fst kv) <= len mbo) kvs ->
  exists mbo',
    foldr (uncurry (fun (ngram : list str) (count : Z) (st : result (list Z)) =>
                      let* l := st in list_add_at l (len ngram - 1) count))
          (Ok mbo) kvs = Ok mbo'
    /\ bumped (fun i => foldr (uncurry (fun (k : list str) (v n : Z) =>
                                          if len k =? Z.of_nat i + 1 then n + v else n))
                              0 kvs) mbo mbo'.
Proof.
  induction 1 as [|[k v] kvs Hk Hkvs (mbo1 & Hfold & Hlen & Hbump)].
  - exists mbo. split; [done|]. split; [done|]. intros i x Hx. simpl. by rewrite Z.add_0_r.
  - simpl in Hk. cbn [foldr uncurry]. rewrite Hfold. simpl.
    assert (exists p : nat, len k - 1 = Z.of_nat p /\ (p < List.length mbo)%nat)
      as (p & Hp & Hlt).
    { exists (Z.to_nat (len k - 1)). unfold len in *. lia. }
    destruct (lookup_lt_is_Some_2 mbo p Hlt) as [x Hx].
    rewrite Hp, (list_add_at_pos mbo1 p (x + _) v (Hbump p x Hx)).
    eexists. split; [reflexivity|]. split; [by rewrite length_insert|].
    intros i y Hy. destruct (decide (i = p)) as [->|Hne].
    + rewrite list_lookup_insert_eq by lia.
      assert (x = y) as -> by congruence.
      destruct (Z.eqb_spec (len k) (Z.of_nat p + 1)); [f_equal; lia|lia].
    + rewrite list_lookup_insert_ne by done. rewrite (Hbump i y Hy).
      destruct (Z.eqb_spec (len k) (Z.of_nat i + 1)); [lia|done].
Qed.

Lemma add_matches_bumped (c : gmap (list str) Z) (mbo : list Z) :
  ngrams_ok (len mbo) c ->
  exists mbo',
    BLEUScore.add_matches c mbo = Ok mbo'
    /\ bumped (fun i => count_len (Z.of_nat i + 1) c) mbo mbo'.
Proof.
  intros Hc. unfold BLEUScore.add_matches.
  destruct (add_matches_list (map_to_list c) mbo) as (mbo' & Hfold & Hbump).
  { apply Forall_forall. intros [k v] Hkv. apply elem_of_map_to_list in Hkv.
    simpl. by destruct (Hc k v Hkv). }
  exists mbo'. rewrite map_fold_foldr. split; [exact Hfold|].
  destruct Hbump as [Hlen Hbump]. split; [done|].
  intros i x Hx. rewrite (Hbump i x Hx). unfold count_len. by rewrite map_fold_foldr.
Qed.

Lemma add_possible_bumped (translation : list str) (n : Z) (pmbo : list Z) :
  len pmbo = Z.max 0 n ->
  exists pmbo',
    BLEUScore.add_possible translation n pmbo = Ok pmbo'
    /\ bumped (windows translation) pmbo pmbo'.
Proof.
  intros Hn. unfold BLEUScore.add_possible, py_range.
  replace (n + 1 - 1) with n by lia.
  assert (forall k, (k <= List.length pmbo)%nat ->
            exists l,
              fold_left (fun st order =>
                           let* l := st in
                           let possible_matches := len translation - order + 1 in
                           if 0 <? possible_matches
                           then list_add_at l (order - 1) possible_matches
                           else Ok l)
                        (List.map (fun i => 1 + Z.of_nat i) (seq 0 k)) (Ok pmbo) = Ok l
              /\ bumped (fun i => if (i <? k)%nat then windows translation i else 0) pmbo l)
    as Hgen.
  { induction k as [|k IH]; intros Hk.
    - exists pmbo. split; [done|]. split; [done|]. intros i x Hx. simpl. by rewrite Z.add_0_r.
    - destruct IH as (l & Hfold & Hlen & Hbump); [lia|].
      rewrite seq_S, map_app, fold_left_app, Hfold. simpl.
      replace (len translation - (1 + Z.of_nat k) + 1) with (len translation - Z.of_nat k)
        by lia.
      replace (1 + Z.of_nat k - 1) with (Z.of_nat k) by lia.
      destruct (lookup_lt_is_Some_2 pmbo k ltac:(lia)) as [x Hx].
      pose proof (Hbump k x Hx) as Hl. rewrite Nat.ltb_irrefl, Z.add_0_r in Hl.
      destruct (Z.ltb_spec 0 (len translation - Z.of_nat k)) as [Hpos|Hneg].
      + rewrite (list_add_at_pos l k x _ Hl). eexists. split; [reflexivity|].
        split; [by rewrite length_insert|]. intros i y Hy.
        destruct (decide (i = k)) as [->|Hne].
        * rewrite list_lookup_insert_eq by lia. assert (x = y) as -> by congruence.
          rewrite (proj2 (Nat.ltb_lt k (S k))) by lia. unfold windows. f_equal. lia.
        * rewrite list_lookup_insert_ne by done. rewrite (Hbump i y Hy).
          destruct (Nat.ltb_spec i k), (Nat.ltb_spec i (S k)); try lia; done.
      + exists l. split; [done|]. split; [done|]. intros i y Hy.
        rewrite (Hbump i y Hy). destruct (decide (i = k)) as [->|Hne].
        * rewrite Nat.ltb_irrefl, (proj2 (Nat.ltb_lt k (S k))) by lia.
          unfold windows. f_equal. lia.
        * destruct (Nat.ltb_spec i k), (Nat.ltb_spec i (S k)); try lia; done. }
  destruct (Hgen (Z.to_nat n)) as (l & Hfold & Hlen & Hbump).
  { unfold len in Hn. lia. }
  exists l. split; [exact Hfold|]. split; [done|]. intros i x Hx.
  rewrite (Hbump i x Hx). apply lookup_lt_Some in Hx.
  rewrite (proj2 (Nat.ltb_lt i (Z.to_nat n))); [done|]. unfold len in Hn. lia.
Qed.

Lemma bumped_ext (w w' : nat -> Z) (l l' : list Z) :
  (forall i, (i < List.length l)%nat -> w i = w' i) -> bumped w l l' -> bumped w' l l'.
Proof.
  intros Hw [Hlen Hb]. split; [done|]. intros i x Hx.
  rewrite (Hb i x Hx), Hw; [done|]. by apply lookup_lt_Some in Hx.
Qed.

Lemma bumped_Forall (w : nat -> Z) (l l' : list Z) (P : Z -> Prop) :
  bumped w l l' ->
  (forall i x, l !! i = Some x -> P (x + w i)) -> Forall P l'.
Proof.
  intros [Hlen Hb] HP. apply Forall_lookup. intros i y Hy.
  destruct (lookup_lt_is_Some_2 l i) as [x Hx].
  { apply lookup_lt_Some in Hy. lia. }
  rewrite (Hb i x Hx) in Hy. injection Hy as <-. by apply HP.
Qed.

Lemma ngrams_ok_weaken (n n' : Z) (c : gmap (list str) Z) :
  n <= n' -> ngrams_ok n c -> ngrams_ok n' c.
Proof. intros Hn Hc k v Hk. destruct (Hc k v Hk). lia. Qed.

(** One iteration of the corpus pass on a translation that is its own
    reference. *)
Lemma corpus_step_self (self : BLEUScore.t) (a : BLEUScore.acc) (t : list str) :
  1 <= BLEUScore.max_order self ->
  balanced (BLEUScore.max_order self) a ->
  exists a',
    BLEUScore.corpus_step self a [t] t = Ok a'
    /\ BLEUScore.matches_by_order a' = BLEUScore.possible_matches_by_order a'
    /\ bumped (windows t) (BLEUScore.matches_by_order a) (BLEUScore.matches_by_order a').
Proof.
  intros Hn (Heq & Hlen & _). unfold BLEUScore.corpus_step. simpl.
  destruct (get_ngrams_counts t (BLEUScore.max_order self)) as [Hok Hcount].
  rewrite (counter_or_empty_l _ _ Hok), (counter_and_self _ _ Hok).
  destruct (add_matches_bumped (BLEUScore._get_ngrams t (BLEUScore.max_order self))
              (BLEUScore.matches_by_order a)) as (mbo & -> & Hm).
  { by rewrite Hlen. }
  destruct (add_possible_bumped t (BLEUScore.max_order self)
              (BLEUScore.possible_matches_by_order a)) as (pmbo & -> & Hp).
  { rewrite <- Heq, Hlen. lia. }
  simpl. eexists. split; [reflexivity|]. simpl.
  assert (bumped (windows t) (BLEUScore.matches_by_order a) mbo) as Hm'.
  { eapply bumped_ext; [|exact Hm]. intros i Hi. simpl. rewrite Hcount.
    unfold len in Hlen.
    destruct (Z.leb_spec 1 (Z.of_nat i + 1)), (Z.leb_spec (Z.of_nat i + 1)
                                                  (BLEUScore.max_order self));
      simpl; try lia.
    unfold windows. f_equal. lia. }
  split; [|done]. rewrite <- Heq in Hp. by apply (bumped_unique _ _ _ _ Hm' Hp).
Qed.

Lemma windows_nonneg (t : list str) (i : nat) : 0 <= windows t i.
Proof. unfold windows. lia. Qed.

Lemma corpus_loop_self (self : BLEUScore.t) (translations : list (list str))
      (a : BLEUScore.acc) :
  1 <= BLEUScore.max_order self ->
  balanced (BLEUScore.max_order self) a ->
  exists a',
    BLEUScore.corpus_loop self a (combine (self_references translations) translations)
    = Ok a'
    /\ balanced (BLEUScore.max_order self) a'
    /\ (all_positive a
        \/ (exists t, In t translations /\ BLEUScore.max_order self <= len t) ->
        all_positive a').
Proof.
  intros Hn. revert a. induction translations as [|t ts IH]; intros a Hbal.
  - exists a. split; [done|]. split; [done|]. intros [Hp|(t & [] & _)]. done.
  - destruct (corpus_step_self self a t Hn Hbal) as (a1 & Hstep & Heq1 & Hbump).
    simpl. rewrite Hstep. simpl.
    destruct Hbal as (Heq & Hlen & Hnonneg).
    assert (balanced (BLEUScore.max_order self) a1) as Hbal1.
    { split; [done|]. split.
      - destruct Hbump as [Hl _]. unfold len in *. by rewrite Hl.
      - eapply bumped_Forall; [exact Hbump|]. intros i x Hx.
        rewrite Forall_lookup in Hnonneg. pose proof (Hnonneg i x Hx).
        pose proof (windows_nonneg t i). lia. }
    destruct (IH a1 Hbal1) as (a' & Hloop & Hbal' & Hpos').
    exists a'. split; [done|]. split; [done|]. intros Hcase. apply Hpos'.
    destruct Hcase as [Hp|(t' & [<-|Hin] & Hlong)].
    + left. eapply bumped_Forall; [exact Hbump|]. intros i x Hx.
      unfold all_positive in Hp. rewrite Forall_lookup in Hp. pose proof (Hp i x Hx).
      pose proof (windows_nonneg t i). lia.
    + left. eapply bumped_Forall; [exact Hbump|]. intros i x Hx.
      rewrite Forall_lookup in Hnonneg. pose proof (Hnonneg i x Hx).
      apply lookup_lt_Some in Hx. unfold windows, len in *. lia.
    + right. by exists t'.
Qed.

(** ** BLEU: precisions and the score *)

Lemma list_get_pos {A : Type} (l : list A) (i : nat) (x : A) :
  l !! i = Some x -> list_get l (Z.of_nat i) = Ok x.
Proof.
  intros Hx. unfold list_get, index_pos.
  pose proof (lookup_lt_Some _ _ _ Hx) as Hlt. unfold len.
  destruct (Z.leb_spec 0 (Z.of_nat i)); [|lia].
  destruct (Z.ltb_spec (Z.of_nat i) (Z.of_nat (List.length l))); [|lia].
  simpl. by rewrite Nat2Z.id, Hx.
Qed.

Lemma list_set_pos {A : Type} (l : list A) (i : nat) (v : A) :
  (i < List.length l)%nat -> list_set l (Z.of_nat i) v = Ok (<[i := v]> l).
Proof.
  intros Hlt. unfold list_set, index_pos. unfold len.
  destruct (Z.leb_spec 0 (Z.of_nat i)); [|lia].
  destruct (Z.ltb_spec (Z.of_nat i) (Z.of_nat (List.length l))); [|lia].
  simpl. rewrite Nat2Z.id. by destruct (lookup_lt_is_Some_2 l i Hlt) as [y ->].
Qed.

Lemma fill_precisions_balanced (self : BLEUScore.t) (a : BLEUScore.acc) :
  BLEUScore.smooth self = false ->
  1 <= BLEUScore.max_order self ->
  balanced (BLEUScore.max_order self) a -> all_positive a ->
  exists ps,
    BLEUScore.fill_precisions self a = Ok ps
    /\ ps <> []
    /\ Forall (fun p => (p == 1)%Q) ps.
Proof.
  intros Hsmooth Hn (Heq & Hlen & _) Hpos. unfold BLEUScore.fill_precisions, py_range.
  rewrite Z.sub_0_r, Hsmooth, <- Heq.
  set (n := Z.to_nat (BLEUScore.max_order self)).
  assert (List.length (BLEUScore.matches_by_order a) = n) as Hlen'.
  { unfold len in Hlen. lia. }
  assert (forall k, (k <= n)%nat ->
            exists ps,
              fold_left
                (fun st i =>
                   let* precisions := st in
                   let* m := list_get (BLEUScore.matches_by_order a) i in
                   let* p := list_get (BLEUScore.matches_by_order a) i in
                   let* v := if 0 <? p then true_div (inject_Z m) (inject_Z p)
                             else Ok 0%Q in
                   list_set precisions i v)
                (List.map (fun i => 0 + Z.of_nat i) (seq 0 k)) (Ok (repeat 0%Q n)) = Ok ps
              /\ List.length ps = n
              /\ forall i p, (i < k)%nat -> ps !! i = Some p -> (p == 1)%Q) as Hgen.
  { induction k as [|k IH]; intros Hk.
    - exists (repeat 0%Q n). split; [done|]. split; [by rewrite repeat_length|]. lia.
    - destruct IH as (ps & Hfold & Hps & Hone); [lia|].
      rewrite seq_S, map_app, fold_left_app, Hfold. simpl. rewrite !Z.add_0_l.
      destruct (lookup_lt_is_Some_2 (BLEUScore.matches_by_order a) k ltac:(lia)) as [x Hx].
      rewrite (list_get_pos _ k x Hx). simpl.
      unfold all_positive in Hpos. rewrite Forall_lookup in Hpos.
      pose proof (Hpos k x Hx) as Hxpos.
      rewrite (proj2 (Z.ltb_lt 0 x) Hxpos).
      rewrite true_div_ok by (apply inject_Z_nonzero; lia). simpl.
      rewrite list_set_pos by lia.
      eexists. split; [reflexivity|]. split; [by rewrite length_insert|].
      intros i p Hi Hp. destruct (decide (i = k)) as [->|Hne].
      + rewrite list_lookup_insert_eq in Hp by lia. injection Hp as <-.
        apply Qmult_inv_r, inject_Z_nonzero. lia.
      + rewrite list_lookup_insert_ne in Hp by done. apply (Hone i p); [lia|done]. }
  destruct (Hgen n) as (ps & Hfold & Hps & Hone); [lia|].
  exists ps. split; [exact Hfold|]. split.
  - intros ->. simpl in Hps. lia.
  - apply Forall_lookup. intros i p Hp. apply (Hone i p); [|done].
    apply lookup_lt_Some in Hp. lia.
Qed.

Lemma py_min_Q_elem (l : list Q) (P : Q -> Prop) :
  l <> [] -> Forall P l -> exists m, py_min_Q l = Ok m /\ P m.
Proof.
  destruct l as [|x l]; [done|]. intros _ Hall. simpl.
  apply Forall_cons in Hall as [Hx Hl]. eexists. split; [reflexivity|].
  revert x Hx. induction Hl as [|y l Hy Hl IH]; intros x Hx; [done|].
  simpl. destruct (Qlt_b y x); by apply IH.
Qed.

Lemma sum_log_ones (ps : list Q) :
  Forall (fun p => (p == 1)%Q) ps -> BLEUScore.sum_log ps = 0%R.
Proof.
  intros Hones. unfold BLEUScore.sum_log.
  assert (forall acc : R, fold_left (fun acc p => (acc + ln (Q2R p))%R) ps acc = acc)
    as Hacc; [|apply Hacc].
  induction Hones as [|p ps Hp Hps IH]; intros acc; [done|]. simpl.
  rewrite IH. apply Qeq_eqR in Hp. rewrite Hp.
  replace (Q2R 1) with 1%R by (unfold Q2R; simpl; lra).
  rewrite ln_1. lra.
Qed.

(** C2, as amended.  For a corpus in which every translation is its own
    single reference, [compute_bleu] with [smooth = false] returns exactly
    1.0 provided [max_order >= 1] and some translation has at least
    [max_order] tokens. *)
Theorem bleu_self_consistency (self : BLEUScore.t) (translations : list (list str)) :
  BLEUScore.smooth self = false ->
  1 <= BLEUScore.max_order self ->
  (exists t, In t translations /\ BLEUScore.max_order self <= len t) ->
  BLEUScore.compute_bleu self (self_references translations) translations = Ok 1%R.
Proof.
  intros Hsmooth Hn Hlong. unfold BLEUScore.compute_bleu.
  set (a0 := {| BLEUScore.matches_by_order := _ |}).
  assert (balanced (BLEUScore.max_order self) a0) as Hbal0.
  { split; [done|]. split.
    - simpl. unfold len. rewrite repeat_length. lia.
    - simpl. apply Forall_forall. intros x Hx.
      apply list_elem_of_In, repeat_spec in Hx. lia. }
  destruct (corpus_loop_self self translations a0 Hn Hbal0) as (a & -> & Hbal & Hpos).
  simpl.
  destruct (fill_precisions_balanced self a Hsmooth Hn Hbal (Hpos (or_intror Hlong)))
    as (ps & -> & Hne & Hones).
  simpl.
  destruct (py_min_Q_elem ps _ Hne Hones) as (m & -> & Hm). simpl.
  assert (Qlt_b 0 m = true) as ->.
  { unfold Qlt_b. apply negb_true_iff. destruct (Qle_bool m 0) eqn:E; [|done].
    apply Qle_bool_iff in E. rewrite Hm in E. unfold Qle in E. simpl in E. lia. }
  f_equal. rewrite (sum_log_ones ps Hones).
  unfold Rdiv. rewrite Rmult_0_l. apply exp_0.
Qed.

Lemma bleu_self_consistency_witness :
  BLEUScore.compute_bleu bleu_default
    (self_references [[s "a"; s "b"; s "c"; s "d"; s "a"]; [s "e"]])
    [[s "a"; s "b"; s "c"; s "d"; s "a"]; [s "e"]] = Ok 1%R.
Proof.
  apply (bleu_self_consistency bleu_default
           [[s "a"; s "b"; s "c"; s "d"; s "a"]; [s "e"]]).
  - reflexivity.
  - simpl. lia.
  - exists [s "a"; s "b"; s "c"; s "d"; s "a"]. split; [by left|]. vm_compute. discriminate.
Defined.

(** C2 as stated fails: for a one-token translation with the default
    [max_order = 4] there is no bigram, the second precision is 0 and the
    score is 0.0. *)
Lemma bleu_short_translation_zero :
  [[s "a"]] <> []
  /\ BLEUScore.smooth bleu_default = false
  /\ BLEUScore.compute_bleu bleu_default (self_references [[s "a"]]) [[s "a"]] = Ok 0%R
  /\ Ok 0%R <> Ok 1%R.
Proof.
  split; [done|]. split; [done|]. split; [vm_compute; reflexivity|].
  intros [= H]. lra.
Qed.

(** * Further properties of the module *)

(** ** Retrieval metrics *)

Lemma top_label_inj (k k' : Z) : Metrics.top_label k = Metrics.top_label k' -> k = k'.
Proof.
  unfold Metrics.top_label. intros E. apply (inj (String.append "top_")) in E.
  assert (forall z, NilZero.int_of_string (NilZero.string_of_int (Z.to_int z))
                    = Some (Z.to_int z)) as Hisi.
  { intros z. apply NilZero.isi; destruct z; simpl; try discriminate.
    - intros [= Hp]. by destruct (DecimalPos.Unsigned.to_uint_nonnil p).
    - intros [= Hp]. by destruct (DecimalPos.Unsigned.to_uint_nonnil p). }
  pose proof (Hisi k) as Hk. rewrite E, Hisi in Hk. injection Hk as Hk.
  by rewrite <- (DecimalZ.of_to k), <- (DecimalZ.of_to k'), Hk.
Qed.

Lemma top_k_accuracy_total (docs : list Document) (k : Z) (use_reordered : bool) :
  exists q, Metrics.top_k_accuracy (Metrics.init docs) k use_reordered = Ok q.
Proof. rewrite top_k_accuracy_value. destruct (0 <? len docs); by eexists. Qed.

Lemma retrieval_loop_lookup (docs : list Document) (use_reordered : bool) (ks : list Z)
      (results : gmap string Q) :
  exists m,
    Metrics.retrieval_loop (Metrics.init docs) use_reordered ks results = Ok m
    /\ dom m = dom results ∪ list_to_set (Metrics.top_label <$> ks)
    /\ forall k,
         if bool_decide (k ∈ ks)
         then Ok <$> m !! Metrics.top_label k
              = Some (Metrics.top_k_accuracy (Metrics.init docs) k use_reordered)
         else m !! Metrics.top_label k = results !! Metrics.top_label k.
Proof.
  revert results. induction ks as [|k0 ks IH]; intros results.
  - exists results. split; [done|]. split.
    { simpl. by rewrite (right_id_L ∅ (∪)). }
    intros k. by rewrite bool_decide_eq_false_2 by apply not_elem_of_nil.
  - cbn [Metrics.retrieval_loop].
    destruct (top_k_accuracy_total docs k0 use_reordered) as [q Hq]. rewrite Hq. simpl.
    destruct (IH (<[Metrics.top_label k0 := q]> results)) as (m & Hm & Hdom & Hlook).
    exists m. split; [done|]. split.
    { rewrite Hdom, dom_insert_L. cbn [fmap list_fmap list_to_set].
      apply set_eq. intros x. rewrite !elem_of_union. tauto. }
    intros k. specialize (Hlook k).
    destruct (decide (k ∈ ks)) as [Hin|Hnin].
    + rewrite bool_decide_eq_true_2 in Hlook by done.
      rewrite bool_decide_eq_true_2; [done|by right].
    + rewrite bool_decide_eq_false_2 in Hlook by done.
      destruct (decide (k = k0)) as [->|Hne].
      * rewrite bool_decide_eq_true_2 by by left.
        by rewrite Hlook, lookup_insert_eq, Hq.
      * rewrite bool_decide_eq_false_2 by (intros [?|?]%elem_of_cons; done).
        rewrite Hlook, lookup_insert_ne; [done|]. intros E. by apply top_label_inj in E.
Qed.

(** X1. [calculate_retrieval_metrics] never raises.  Its keys are the
    labels [top_<k>] of the requested cut-offs, and under the label of each
    requested [k] it holds [top_k_accuracy(k)], also when a cut-off is
    listed more than once. *)
Theorem retrieval_metrics_lookup (docs : list Document) (ks : list Z)
        (use_reordered : bool) :
  exists m,
    Metrics.calculate_retrieval_metrics (Metrics.init docs) ks use_reordered = Ok m
    /\ dom m = list_to_set (Metrics.top_label <$> ks)
    /\ forall k, k ∈ ks ->
         exists q, Metrics.top_k_accuracy (Metrics.init docs) k use_reordered = Ok q
                   /\ m !! Metrics.top_label k = Some q.
Proof.
  destruct (retrieval_loop_lookup docs use_reordered ks ∅) as (m & Hm & Hdom & Hlook).
  exists m. split; [exact Hm|]. split.
  - rewrite Hdom, dom_empty_L. by rewrite (left_id_L ∅ (∪)).
  - intros k Hk. specialize (Hlook k). rewrite bool_decide_eq_true_2 in Hlook by done.
    destruct (top_k_accuracy_total docs k use_reordered) as [q Hq].
    exists q. split; [done|]. rewrite Hq in Hlook.
    destruct (m !! Metrics.top_label k); simpl in Hlook; congruence.
Qed.

Lemma retrieval_metrics_lookup_witness :
  exists m,
    Metrics.calculate_retrieval_metrics
      (Metrics.init [doc_hit_first; doc_hit_second]) [1; 2; 1] false = Ok m
    /\ m !! "top_1"%string = Some (100 # 2)%Q
    /\ m !! "top_2"%string = Some (200 # 2)%Q.
Proof.
  destruct (retrieval_metrics_lookup [doc_hit_first; doc_hit_second] [1; 2; 1] false)
    as (m & Hm & _ & Hlook).
  exists m. split; [exact Hm|].
  destruct (Hlook 1 ltac:(by left)) as (q1 & Hq1 & H1).
  destruct (Hlook 2 ltac:(right; by left)) as (q2 & Hq2 & H2).
  vm_compute in Hq1, Hq2. injection Hq1 as <-. injection Hq2 as <-.
  split; [exact H1|exact H2].
Defined.

Example top_labels :
  Metrics.top_label 5 = "top_5"%string
  /\ Metrics.top_label 100 = "top_100"%string
  /\ Metrics.top_label (-3) = "top_-3"%string
  /\ Metrics.top_label 0 = "top_0"%string.
Proof. repeat split. Qed.

(** X2. [top_k_accuracy] is a percentage: it lies between 0 and 100. *)
Theorem top_k_accuracy_bounds (docs : list Document) (k : Z) (use_reordered : bool) :
  exists q, Metrics.top_k_accuracy (Metrics.init docs) k use_reordered = Ok q
            /\ (0 <= q)%Q /\ (q <= 100)%Q.
Proof.
  rewrite top_k_accuracy_value. pose proof (hits_bounds use_reordered k docs) as [Hlo Hhi].
  destruct (Z.ltb_spec 0 (len docs)) as [Hpos|Hz].
  - eexists. split; [reflexivity|].
    assert (0 < inject_Z (len docs))%Q as Hd.
    { replace 0%Q with (inject_Z 0) by done. by rewrite <- Zlt_Qlt. }
    split.
    + apply Qmult_le_0_compat; [|done]. apply Qle_shift_div_l; [done|].
      rewrite Qmult_0_l. replace 0%Q with (inject_Z 0) by done. by rewrite <- Zle_Qle.
    + apply Qle_trans with (1 * 100)%Q; [|done].
      apply Qmult_le_compat_r; [|done]. apply Qle_shift_div_r; [done|].
      rewrite Qmult_1_l. by rewrite <- Zle_Qle.
  - exists 0%Q. split; [done|]. split; done.
Qed.

Lemma hits_ext (use_reordered use_reordered' : bool) (k k' : Z) (docs docs' : list Document) :
  Forall2 (fun d d' => Spec.hit use_reordered k d = Spec.hit use_reordered' k' d') docs docs' ->
  Spec.hits use_reordered k docs = Spec.hits use_reordered' k' docs'.
Proof.
  unfold Spec.hits. induction 1 as [|d d' docs docs' Hd Hdocs IH]; [done|].
  simpl. rewrite Hd. destruct (Spec.hit use_reordered' k' d'); rewrite ?len_cons; lia.
Qed.

Lemma slice_to_all {A : Type} (l : list A) (k : Z) : len l <= k -> slice_to l k = l.
Proof.
  intros Hk. rewrite slice_to_firstn. unfold slice_bound.
  pose proof (len_nonneg l). destruct (Z.ltb_spec k 0); [lia|].
  apply firstn_all2. unfold len in *. lia.
Qed.

(** X3. Once the cut-off reaches the length of every context list in use,
    [top_k_accuracy] stops changing: any larger cut-off gives the same
    value. *)
Theorem top_k_accuracy_saturates (docs : list Document) (use_reordered : bool) (k k' : Z) :
  (forall d, In d docs -> len (Metrics.contexts_to_use use_reordered d) <= k) ->
  k <= k' ->
  Metrics.top_k_accuracy (Metrics.init docs) k' use_reordered
  = Metrics.top_k_accuracy (Metrics.init docs) k use_reordered.
Proof.
  intros Hall Hk. rewrite !top_k_accuracy_value.
  rewrite (hits_ext use_reordered use_reordered k' k docs docs); [done|].
  apply Forall2_same_length_lookup. split; [done|].
  intros i d d' Hd Hd'. assert (d' = d) as -> by congruence.
  unfold Spec.hit. rewrite <- !contexts_to_use_selected.
  assert (In d docs) as Hin by (eapply list_elem_of_In, list_elem_of_lookup_2; eauto).
  rewrite !slice_to_all; [done| |]; specialize (Hall d Hin); lia.
Qed.

Lemma top_k_accuracy_saturates_witness :
  Metrics.top_k_accuracy (Metrics.init [doc_hit_first; doc_hit_second]) 10 false
  = Metrics.top_k_accuracy (Metrics.init [doc_hit_first; doc_hit_second]) 2 false.
Proof.
  apply (top_k_accuracy_saturates [doc_hit_first; doc_hit_second] false 2 10); [|lia].
  intros d [<-|[<-|[]]]; vm_compute; discriminate.
Defined.

(** X4. Reranked lists are used only where they exist: when every document's
    [reorder_contexts] is absent or empty, [use_reordered = True] gives the
    same accuracy as [use_reordered = False]. *)
Theorem top_k_accuracy_fallback (docs : list Document) (k : Z) :
  (forall d, In d docs -> reorder_contexts d = None \/ reorder_contexts d = Some []) ->
  Metrics.top_k_accuracy (Metrics.init docs) k true
  = Metrics.top_k_accuracy (Metrics.init docs) k false.
Proof.
  intros Hall. rewrite !top_k_accuracy_value.
  rewrite (hits_ext true false k k docs docs); [done|].
  apply Forall2_same_length_lookup. split; [done|].
  intros i d d' Hd Hd'. assert (d' = d) as -> by congruence.
  assert (In d docs) as Hin by (eapply list_elem_of_In, list_elem_of_lookup_2; eauto).
  unfold Spec.hit, Spec.selected. by destruct (Hall d Hin) as [->| ->].
Qed.

Lemma top_k_accuracy_fallback_witness :
  Metrics.top_k_accuracy (Metrics.init [doc_hit_first; doc_hit_second]) 1 true
  = Metrics.top_k_accuracy (Metrics.init [doc_hit_first; doc_hit_second]) 1 false.
Proof.
  apply (top_k_accuracy_fallback [doc_hit_first; doc_hit_second] 1).
  intros d [<-|[<-|[]]]; by left.
Defined.

(** ** Normalization, continued *)

(** X5. A normalized answer consists of the characters [a-z], [0-9] and the
    space only; it is its own tokens joined by single spaces (no leading,
    trailing or doubled space); and none of its tokens is an article. *)
Theorem normalize_answer_shape (x : str) :
  Forall (fun c => keep_char c = true) (normalize_answer x)
  /\ join (s " ") (split (normalize_answer x)) = normalize_answer x
  /\ Forall (fun w => w ∉ articles) (split (normalize_answer x)).
Proof.
  rewrite (normalize_answer_words x).
  destruct (norm_words_words x) as [Hwords Hart].
  split; [by apply join_words_clean|].
  rewrite (split_join_words _ Hwords). split; [done|].
  eapply Forall_impl; [exact Hart|]. intros w Hw. simpl in Hw.
  unfold is_article in Hw. by apply bool_decide_eq_false in Hw.
Qed.

Lemma lower_char_idempotent (c : ascii) : lower_char (lower_char c) = lower_char c.
Proof. destruct c as [[] [] [] [] [] [] [] []]; reflexivity. Qed.

(** X6. Normalization does not see letter case: lowering the input first
    changes nothing. *)
Theorem normalize_answer_lower (x : str) :
  normalize_answer (lower x) = normalize_answer x.
Proof.
  unfold normalize_answer. f_equal. f_equal. f_equal.
  unfold lower. rewrite map_map. apply map_ext. intros c. apply lower_char_idempotent.
Qed.

(** ** Exact match and contains match *)

(** X7. [calculate_em] is 1.0 exactly when some reference has the same
    normal form as the prediction, and 0.0 otherwise; in particular the
    order of the references does not matter and an empty reference list
    gives 0.0. *)
Theorem calculate_em_iff (prediction : str) (golden_answers : list str) :
  (ExactMatch.calculate_em prediction golden_answers = 1%Q
   <-> exists answer, In answer golden_answers
                      /\ normalize_answer answer = normalize_answer prediction)
  /\ (ExactMatch.calculate_em prediction golden_answers = 0%Q
      <-> ~ exists answer, In answer golden_answers
                           /\ normalize_answer answer = normalize_answer prediction).
Proof.
  unfold ExactMatch.calculate_em.
  induction golden_answers as [|g gs [IH1 IH0]]; simpl.
  - split; split; try done.
    + intros (a & [] & _).
    + intros _ (a & [] & _).
  - case_bool_decide as E.
    + split; split; try done.
      * intros _. exists g. by split; [left|].
      * intros Hno. exfalso. apply Hno. exists g. by split; [left|].
    + split.
      * rewrite IH1. split.
        -- intros (a & Hin & Ha). exists a. by split; [right|].
        -- intros (a & [->|Hin] & Ha); [done|]. by exists a.
      * rewrite IH0. split.
        -- intros Hno (a & [->|Hin] & Ha); [done|]. apply Hno. by exists a.
        -- intros Hno (a & Hin & Ha). apply Hno. exists a. by split; [right|].
Qed.

Lemma is_prefix_spec (p t : str) : is_prefix p t = true <-> exists post, t = p ++ post.
Proof.
  revert t. induction p as [|a p IH]; intros t; simpl.
  - split; [intros _; by exists t|done].
  - destruct t as [|b t]; [split; [done|by intros [? ?]]|].
    destruct (Ascii.eqb_spec a b) as [->|Hne].
    + rewrite IH. split; intros [post Hp]; exists post; [by rewrite Hp|congruence].
    + split; [done|]. intros [post Hp]. congruence.
Qed.

Lemma str_contains_spec (needle haystack : str) :
  str_contains needle haystack = true
  <-> exists pre post, haystack = pre ++ needle ++ post.
Proof.
  induction haystack as [|c h IH]; simpl.
  - rewrite orb_false_r, is_prefix_spec. split.
    + intros [post Hp]. by exists [], post.
    + intros (pre & post & Hp). destruct pre; [by exists post|done].
  - rewrite orb_true_iff, is_prefix_spec, IH. split.
    + intros [[post Hp]|(pre & post & Hp)].
      * by exists [], post.
      * exists (c :: pre), post. by rewrite Hp.
    + intros (pre & post & Hp). destruct pre as [|c' pre].
      * left. by exists post.
      * right. exists pre, post. simpl in Hp. congruence.
Qed.

(** X8. [calculate_contains] is 1.0 exactly when the normal form of some
    reference occurs as a contiguous piece of the normalized prediction,
    and 0.0 otherwise. *)
Theorem calculate_contains_iff (prediction : str) (golden_answers : list str) :
  (ContainsMatch.calculate_contains prediction golden_answers = 1%Q
   <-> exists answer pre post,
         In answer golden_answers
         /\ normalize_answer prediction = pre ++ normalize_answer answer ++ post)
  /\ (ContainsMatch.calculate_contains prediction golden_answers = 1%Q
      \/ ContainsMatch.calculate_contains prediction golden_answers = 0%Q).
Proof.
  unfold ContainsMatch.calculate_contains.
  induction golden_answers as [|g gs [IH1 IH0]]; simpl.
  - split; [|by right]. split; [done|]. intros (a & ? & ? & [] & _).
  - destruct (str_contains (normalize_answer g) (normalize_answer prediction)) eqn:E.
    + split; [|by left]. split; [|done]. intros _.
      apply str_contains_spec in E as (pre & post & E). exists g, pre, post.
      by split; [left|].
    + split; [|done]. rewrite IH1. split.
      * intros (a & pre & post & Hin & Ha). exists a, pre, post. by split; [right|].
      * intros (a & pre & post & [->|Hin] & Ha).
        -- assert (str_contains (normalize_answer a) (normalize_answer prediction) = true)
             by (apply str_contains_spec; by exists pre, post).
           congruence.
        -- by exists a, pre, post.
Qed.

Lemma calculate_em_le_contains (prediction : str) (golden_answers : list str) :
  (ExactMatch.calculate_em prediction golden_answers
   <= ContainsMatch.calculate_contains prediction golden_answers)%Q.
Proof.
  unfold ExactMatch.calculate_em, ContainsMatch.calculate_contains.
  induction golden_answers as [|g gs IH]; simpl; [done|].
  case_bool_decide as E.
  - rewrite E. assert (forall x, str_contains x x = true) as Hrefl.
    { intros x. apply str_contains_spec. exists [], []. by rewrite app_nil_r. }
    by rewrite Hrefl.
  - destruct (str_contains _ _); [|done].
    clear. induction gs as [|g gs IH]; simpl; [done|]. by case_bool_decide.
Qed.

Lemma calculate_contains_values (prediction : str) (golden_answers : list str) :
  ContainsMatch.calculate_contains prediction golden_answers = 1%Q
  \/ ContainsMatch.calculate_contains prediction golden_answers = 0%Q.
Proof.
  unfold ContainsMatch.calculate_contains.
  induction golden_answers as [|g gs IH]; simpl; [by right|].
  destruct (str_contains _ _); [by left|done].
Qed.

(** X9. An exact match is always a contains match: whenever [calculate_em]
    gives 1.0, so does [calculate_contains]. *)
Theorem exact_match_implies_contains (prediction : str) (golden_answers : list str) :
  ExactMatch.calculate_em prediction golden_answers = 1%Q ->
  ContainsMatch.calculate_contains prediction golden_answers = 1%Q.
Proof.
  intros Hem. pose proof (calculate_em_le_contains prediction golden_answers) as Hle.
  destruct (calculate_contains_values prediction golden_answers) as [H1|H0]; [done|].
  rewrite Hem, H0 in Hle. by vm_compute in Hle.
Qed.

Lemma exact_match_implies_contains_witness :
  ContainsMatch.calculate_contains (s "The Paris!") [s "Lyon"; s "paris"] = 1%Q.
Proof.
  apply (exact_match_implies_contains (s "The Paris!") [s "Lyon"; s "paris"]).
  reflexivity.
Defined.

(** ** Token-level scores, continued *)

Lemma occurrences_cons (t x : str) (l : list str) :
  Spec.occurrences t (x :: l)
  = Spec.occurrences t l + (if bool_decide (x = t) then 1 else 0).
Proof.
  unfold Spec.occurrences. simpl. case_bool_decide; rewrite ?len_cons; lia.
Qed.

Lemma sum_indicator (x : str) (ks : list str) :
  NoDup ks ->
  fold_right (fun t n => (if bool_decide (x = t) then 1 else 0) + n) 0 ks
  = if bool_decide (x ∈ ks) then 1 else 0.
Proof.
  induction 1 as [|k ks Hk Hnd IH]; cbn [fold_right].
  - by rewrite bool_decide_eq_false_2 by apply not_elem_of_nil.
  - rewrite IH. destruct (decide (x = k)) as [->|Hne].
    + rewrite (bool_decide_eq_true_2 (k = k)) by done.
      rewrite (bool_decide_eq_false_2 (k ∈ ks)) by done.
      rewrite bool_decide_eq_true_2; [done|by left].
    + rewrite (bool_decide_eq_false_2 (x = k)) by done.
      destruct (decide (x ∈ ks)).
      * rewrite !bool_decide_eq_true_2; [done|by right|done].
      * rewrite !bool_decide_eq_false_2; [done| |done].
        intros [?|?]%elem_of_cons; done.
Qed.

(** Over duplicate-free keys, the occurrence counts add up to the number of
    elements that are among the keys. *)
Lemma sum_occurrences (ks l : list str) :
  NoDup ks ->
  fold_right (fun t n => Spec.occurrences t l + n) 0 ks
  = len (List.filter (fun x => bool_decide (x ∈ ks)) l).
Proof.
  intros Hnd. induction l as [|x l IH].
  - simpl. induction ks as [|k ks IHk]; [done|]. simpl.
    apply NoDup_cons in Hnd as [_ Hnd]. by rewrite (IHk Hnd).
  - assert (fold_right (fun t n => Spec.occurrences t (x :: l) + n) 0 ks
            = fold_right (fun t n => Spec.occurrences t l + n) 0 ks
              + fold_right (fun t n => (if bool_decide (x = t) then 1 else 0) + n) 0 ks) as ->.
    { clear. induction ks as [|k ks IH]; [done|]. simpl.
      rewrite IH, occurrences_cons. lia. }
    rewrite IH, sum_indicator by done. simpl.
    destruct (bool_decide (x ∈ ks)); rewrite ?len_cons; lia.
Qed.

Lemma sum_min_le (f g : str -> Z) (ks : list str) :
  fold_right (fun t n => Z.min (f t) (g t) + n) 0 ks
  <= fold_right (fun t n => f t + n) 0 ks
  /\ fold_right (fun t n => Z.min (f t) (g t) + n) 0 ks
     <= fold_right (fun t n => g t + n) 0 ks.
Proof. induction ks as [|k ks [IH1 IH2]]; simpl; [done|]. lia. Qed.

Lemma num_same_le_pred (pred ref : list str) : Spec.num_same pred ref <= len pred.
Proof.
  pose proof (sum_occurrences (Spec.distinct pred) pred (NoDup_distinct pred)) as Hsum.
  pose proof (proj1 (sum_min_le (fun t => Spec.occurrences t pred)
                       (fun t => Spec.occurrences t ref) (Spec.distinct pred))) as Hle.
  pose proof (filter_length_le (fun x => bool_decide (x ∈ Spec.distinct pred)) pred).
  unfold Spec.num_same, len in *. lia.
Qed.

Lemma num_same_le_ref (pred ref : list str) : Spec.num_same pred ref <= len ref.
Proof.
  pose proof (sum_occurrences (Spec.distinct pred) ref (NoDup_distinct pred)) as Hsum.
  pose proof (proj2 (sum_min_le (fun t => Spec.occurrences t pred)
                       (fun t => Spec.occurrences t ref) (Spec.distinct pred))) as Hle.
  pose proof (filter_length_le (fun x => bool_decide (x ∈ Spec.distinct pred)) ref).
  unfold Spec.num_same, len in *. lia.
Qed.

Lemma num_same_self (l : list str) : Spec.num_same l l = len l.
Proof.
  pose proof (sum_occurrences (Spec.distinct l) l (NoDup_distinct l)) as Hsum.
  rewrite filter_all in Hsum.
  - rewrite <- Hsum. unfold Spec.num_same. clear Hsum.
    induction (Spec.distinct l) as [|t ts IH]; [done|]. simpl. rewrite IH. lia.
  - apply Forall_forall. intros x Hx. apply bool_decide_eq_true. by apply elem_of_distinct.
Qed.

Lemma ratio_unit (n d : Z) :
  0 < n -> n <= d -> (0 < inject_Z n / inject_Z d)%Q /\ (inject_Z n / inject_Z d <= 1)%Q.
Proof.
  intros Hn Hd.
  assert (0 < inject_Z d)%Q as Hdq.
  { replace 0%Q with (inject_Z 0) by done. rewrite <- Zlt_Qlt. lia. }
  split.
  - apply Qlt_shift_div_l; [done|]. rewrite Qmult_0_l.
    replace 0%Q with (inject_Z 0) by done. by rewrite <- Zlt_Qlt.
  - apply Qle_shift_div_r; [done|]. rewrite Qmult_1_l. by rewrite <- Zle_Qle.
Qed.

Lemma reference_scores_unit (pred ref : list str) :
  unit_score (F1Score.f1 (Spec.reference_scores pred ref))
  /\ unit_score (F1Score.precision (Spec.reference_scores pred ref))
  /\ unit_score (F1Score.recall (Spec.reference_scores pred ref)).
Proof.
  unfold Spec.reference_scores.
  destruct (Z.eqb_spec (Spec.num_same pred ref) 0) as [E|E].
  - repeat split; done.
  - pose proof (num_same_nonneg pred ref).
    destruct (ratio_unit (Spec.num_same pred ref) (len pred) ltac:(lia)
                (num_same_le_pred pred ref)) as [Hp0 Hp1].
    destruct (ratio_unit (Spec.num_same pred ref) (len ref) ltac:(lia)
                (num_same_le_ref pred ref)) as [Hr0 Hr1].
    simpl. set (p := (inject_Z (Spec.num_same pred ref) / inject_Z (len pred))%Q) in *.
    set (r := (inject_Z (Spec.num_same pred ref) / inject_Z (len ref))%Q) in *.
    assert (0 < p + r)%Q as Hpr by Lqa.lra.
    repeat split; try (by apply Qlt_le_weak); try done.
    + apply Qle_shift_div_l; [done|]. Lqa.nra.
    + apply Qle_shift_div_r; [done|]. Lqa.nra.
Qed.

Lemma maximum_unit (l : list Q) : Forall unit_score l -> unit_score (Spec.maximum l).
Proof.
  induction 1 as [|x l [Hx0 Hx1] Hl [IH0 IH1]]; [by split|].
  simpl. split.
  - eapply Qle_trans; [exact Hx0|]. apply Q.le_max_l.
  - by apply Q.max_lub.
Qed.

Lemma maximum_ge (l : list Q) (x : Q) : In x l -> (x <= Spec.maximum l)%Q.
Proof.
  induction l as [|y l IH]; [done|]. intros [->|Hin]; simpl.
  - apply Q.le_max_l.
  - eapply Qle_trans; [by apply IH|]. apply Q.le_max_r.
Qed.

Lemma best_unit (proj : F1Score.scores -> Q) (prediction : str) (gts : list str) :
  (forall pred ref, unit_score (proj (Spec.reference_scores pred ref))) ->
  unit_score (Spec.best proj prediction gts).
Proof.
  intros Hproj. unfold Spec.best. apply maximum_unit.
  apply Forall_forall. intros x Hx. apply list_elem_of_In, in_map_iff in Hx as (g & <- & _).
  apply Hproj.
Qed.

Lemma token_level_scores_unit (prediction : str) (gts : list str) :
  exists m,
    F1Score.token_level_scores prediction gts = Ok m
    /\ unit_score (F1Score.f1 m)
    /\ unit_score (F1Score.precision m)
    /\ unit_score (F1Score.recall m).
Proof.
  destruct (token_level_loop_best prediction F1Score.zero_scores gts)
    as (m & Hm & H1 & H2 & H3); try apply Qle_refl.
  exists m. split; [exact Hm|].
  simpl in H1, H2, H3. rewrite Q.max_r in H1, H2, H3 by apply maximum_nonneg.
  unfold unit_score. rewrite H1, H2, H3.
  repeat split; apply best_unit; intros; apply reference_scores_unit.
Qed.

(** X10. The three token-level scores are always between 0 and 1. *)
Theorem token_level_scores_bounds (prediction : str) (ground_truths : list str) :
  exists m,
    F1Score.token_level_scores prediction ground_truths = Ok m
    /\ (0 <= F1Score.f1 m)%Q /\ (F1Score.f1 m <= 1)%Q
    /\ (0 <= F1Score.precision m)%Q /\ (F1Score.precision m <= 1)%Q
    /\ (0 <= F1Score.recall m)%Q /\ (F1Score.recall m <= 1)%Q.
Proof.
  destruct (token_level_scores_unit prediction ground_truths)
    as (m & Hm & [? ?] & [? ?] & [? ?]).
  exists m. repeat split; done.
Qed.

(** X11. When the prediction and one of the references have the same,
    non-empty token list, all three token-level scores are 1. *)
Theorem token_identical_scores (prediction : str) (ground_truths : list str) (g : str) :
  In g ground_truths ->
  Spec.tokens prediction = Spec.tokens g ->
  Spec.tokens prediction <> [] ->
  exists m,
    F1Score.token_level_scores prediction ground_truths = Ok m
    /\ (F1Score.f1 m == 1)%Q /\ (F1Score.precision m == 1)%Q /\ (F1Score.recall m == 1)%Q.
Proof.
  intros Hin Heq Hne.
  destruct (token_level_loop_best prediction F1Score.zero_scores ground_truths)
    as (m & Hm & H1 & H2 & H3); try apply Qle_refl.
  exists m. split; [exact Hm|].
  simpl in H1, H2, H3. rewrite Q.max_r in H1, H2, H3 by apply maximum_nonneg.
  assert (forall proj : F1Score.scores -> Q,
            (forall pred ref, unit_score (proj (Spec.reference_scores pred ref))) ->
            (proj (Spec.reference_scores (Spec.tokens prediction) (Spec.tokens g)) == 1)%Q ->
            (Spec.best proj prediction ground_truths == 1)%Q) as Hbest.
  { intros proj Hunit Hone. apply Qle_antisym.
    - by apply best_unit.
    - rewrite <- Hone. unfold Spec.best. apply maximum_ge.
      apply in_map_iff. by exists g. }
  assert (len (Spec.tokens g) <> 0) as Hlen.
  { rewrite <- Heq. intros E. by apply len_nil_iff in E. }
  assert (inject_Z (len (Spec.tokens g)) / inject_Z (len (Spec.tokens g)) == 1)%Q as Hratio.
  { apply Qmult_inv_r. by apply inject_Z_nonzero. }
  rewrite H1, H2, H3.
  repeat split; apply Hbest; try (intros; apply reference_scores_unit);
    unfold Spec.reference_scores; rewrite Heq, num_same_self;
    destruct (Z.eqb_spec (len (Spec.tokens g)) 0); try done; simpl; rewrite ?Hratio; done.
Qed.

Lemma token_identical_scores_witness :
  exists m,
    F1Score.token_level_scores (s "The Eiffel Tower!") [s "Louvre"; s "eiffel tower"] = Ok m
    /\ (F1Score.f1 m == 1)%Q /\ (F1Score.precision m == 1)%Q /\ (F1Score.recall m == 1)%Q.
Proof.
  apply (token_identical_scores (s "The Eiffel Tower!") [s "Louvre"; s "eiffel tower"]
           (s "eiffel tower")).
  - right. by left.
  - reflexivity.
  - vm_compute. discriminate.
Defined.

(** ** The averaged scorers, continued *)

Lemma py_sum_bounds (l : list Q) :
  Forall unit_score l -> (0 <= py_sum l)%Q /\ (py_sum l <= inject_Z (len l))%Q.
Proof.
  intros Hl. unfold py_sum.
  assert (forall acc : Q,
            (acc <= fold_left Qplus l acc)%Q
            /\ (fold_left Qplus l acc <= acc + inject_Z (len l))%Q) as Hacc.
  { induction Hl as [|x l [Hx0 Hx1] Hl IH]; intros acc; simpl.
    - change (inject_Z (len [])) with 0%Q. split; Lqa.lra.
    - destruct (IH (acc + x)%Q) as [IH0 IH1]. rewrite len_cons.
      rewrite inject_Z_plus. change (inject_Z 1) with 1%Q. split; Lqa.lra. }
  destruct (Hacc 0%Q) as [H0 H1]. split; [done|]. Lqa.lra.
Qed.

Lemma mean_unit (l : list Q) (mu : Q) :
  Forall unit_score l -> BaseMetric.mean l = Ok mu -> unit_score mu.
Proof.
  intros Hl Hmu. destruct l as [|x l]; [done|].
  rewrite mean_cons in Hmu. injection Hmu as <-.
  destruct (py_sum_bounds (x :: l) Hl) as [H0 H1].
  assert (0 < inject_Z (len (x :: l)))%Q as Hd.
  { replace 0%Q with (inject_Z 0) by done. rewrite <- Zlt_Qlt, len_cons.
    pose proof (len_nonneg l). lia. }
  split.
  - apply Qle_shift_div_l; [done|]. by rewrite Qmult_0_l.
  - apply Qle_shift_div_r; [done|]. by rewrite Qmult_1_l.
Qed.

Lemma pairs_of_length (data : Data) :
  List.length (pairs_of data)
  = Nat.min (List.length (predictions data)) (List.length (documents data)).
Proof.
  unfold pairs_of, BaseMetric.get_dataset_answer. by rewrite length_combine, length_map.
Qed.

Lemma calculate_em_unit (prediction : str) (golden_answers : list str) :
  unit_score (ExactMatch.calculate_em prediction golden_answers).
Proof.
  unfold ExactMatch.calculate_em.
  induction golden_answers as [|g gs IH]; simpl; [by split|].
  case_bool_decide; [by split|done].
Qed.

Lemma calculate_contains_unit (prediction : str) (golden_answers : list str) :
  unit_score (ContainsMatch.calculate_contains prediction golden_answers).
Proof.
  destruct (calculate_contains_values prediction golden_answers) as [-> | ->]; by split.
Qed.

Lemma exact_match_bounded : scorer_bounded ExactMatch.calculate_metric.
Proof.
  intros data m l. unfold ExactMatch.calculate_metric. fold (pairs_of data).
  destruct (BaseMetric.mean _) as [mu|] eqn:Hmu; [|done]. simpl. intros [= <- <-].
  assert (Forall unit_score
            (List.map (fun pg => ExactMatch.calculate_em pg.1 pg.2) (pairs_of data))) as Hl.
  { apply Forall_forall. intros x Hx. apply list_elem_of_In, in_map_iff in Hx as (pg & <- & _).
    apply calculate_em_unit. }
  split; [by rewrite length_map, pairs_of_length|]. split; [done|].
  exists "exact_match"%string, mu. split; [done|]. split; [done|]. by apply (mean_unit _ _ Hl).
Qed.

Lemma contains_match_bounded : scorer_bounded ContainsMatch.calculate_metric.
Proof.
  intros data m l. unfold ContainsMatch.calculate_metric. fold (pairs_of data).
  destruct (BaseMetric.mean _) as [mu|] eqn:Hmu; [|done]. simpl. intros [= <- <-].
  assert (Forall unit_score
            (List.map (fun pg => ContainsMatch.calculate_contains pg.1 pg.2) (pairs_of data)))
    as Hl.
  { apply Forall_forall. intros x Hx. apply list_elem_of_In, in_map_iff in Hx as (pg & <- & _).
    apply calculate_contains_unit. }
  split; [by rewrite length_map, pairs_of_length|]. split; [done|].
  exists "contains_match"%string, mu. split; [done|]. split; [done|].
  by apply (mean_unit _ _ Hl).
Qed.

Lemma map_result_Forall {A B : Type} (f : A -> result B) (P : B -> Prop) (l : list A)
      (ys : list B) :
  (forall x y, f x = Ok y -> P y) ->
  map_result f l = Ok ys -> Forall P ys /\ List.length ys = List.length l.
Proof.
  intros Hf. revert ys. induction l as [|x l IH]; intros ys; simpl.
  - intros [= <-]. by split.
  - destruct (f x) as [y|] eqn:Hy; [|done]. simpl.
    destruct (map_result f l) as [ys'|]; [|done]. simpl. intros [= <-].
    destruct (IH ys' eq_refl) as [Hall Hlen]. split; [|simpl; by rewrite Hlen].
    constructor; [by apply (Hf x)|done].
Qed.

Lemma token_scorer_bounded (name : string) (proj : F1Score.scores -> Q)
      (data : Data) (m : gmap string Q) (l : list Q) :
  (forall sc, unit_score (F1Score.f1 sc) /\ unit_score (F1Score.precision sc)
              /\ unit_score (F1Score.recall sc) -> unit_score (proj sc)) ->
  (let* l := map_result (fun pg => let* sc := F1Score.token_level_scores (fst pg) (snd pg) in
                                   Ok (proj sc)) (pairs_of data) in
   let* score := BaseMetric.mean l in
   Ok ({[ name := (score * 100)%Q ]}, l)) = Ok (m, l) ->
  List.length l = Nat.min (List.length (predictions data)) (List.length (documents data))
  /\ Forall unit_score l
  /\ exists (name : string) (mu : Q),
       m = {[ name := (mu * 100)%Q ]} /\ BaseMetric.mean l = Ok mu /\ unit_score mu.
Proof.
  intros Hproj.
  destruct (map_result _ (pairs_of data)) as [ys|] eqn:Hys; [|done]. simpl.
  destruct (BaseMetric.mean ys) as [mu|] eqn:Hmu; [|done]. simpl. intros [= <- <-].
  apply (map_result_Forall _ unit_score) in Hys as [Hall Hlen].
  - split; [by rewrite Hlen, pairs_of_length|]. split; [done|].
    exists name, mu. split; [done|]. split; [done|]. by apply (mean_unit _ _ Hall).
  - intros pg y Hy.
    destruct (token_level_scores_unit (fst pg) (snd pg)) as (sc & Hsc & Hunit).
    rewrite Hsc in Hy. simpl in Hy. injection Hy as <-. by apply Hproj.
Qed.

Lemma f1_score_bounded : scorer_bounded F1Score.calculate_metric.
Proof. intros data m l. apply (token_scorer_bounded "f1_score" F1Score.f1). tauto. Qed.

Lemma precision_bounded : scorer_bounded PrecisionScore.calculate_metric.
Proof. intros data m l. apply (token_scorer_bounded "precision" F1Score.precision). tauto. Qed.

Lemma recall_bounded : scorer_bounded RecallScore.calculate_metric.
Proof. intros data m l. apply (token_scorer_bounded "recall" F1Score.recall). tauto. Qed.

(** X12. Each of the five averaged scorers, when it returns, gives one score
    between 0 and 1 per zipped pair (so as many as the shorter of the two
    lists), and a single key whose value is 100 times their mean, between 0
    and 100. *)
Theorem averaged_scorer_result (calculate_metric : Data -> result metric_result)
        (data : Data) (m : gmap string Q) (l : list Q) :
  In calculate_metric Metrics.metric_classes ->
  calculate_metric data = Ok (m, l) ->
  List.length l = Nat.min (List.length (predictions data)) (List.length (documents data))
  /\ Forall (fun x => (0 <= x)%Q /\ (x <= 1)%Q) l
  /\ exists (name : string) (mu : Q),
       m = {[ name := (mu * 100)%Q ]}
       /\ BaseMetric.mean l = Ok mu
       /\ (0 <= mu * 100)%Q /\ (mu * 100 <= 100)%Q.
Proof.
  intros Hin Hcalc.
  assert (scorer_bounded calculate_metric) as Hb.
  { unfold Metrics.metric_classes in Hin. simpl in Hin.
    destruct Hin as [<-|[<-|[<-|[<-|[<-|[]]]]]].
    - apply exact_match_bounded.
    - apply f1_score_bounded.
    - apply precision_bounded.
    - apply recall_bounded.
    - apply contains_match_bounded. }
  destruct (Hb data m l Hcalc) as (Hlen & Hall & name & mu & Hm & Hmu & [H0 H1]).
  split; [done|]. split; [done|]. exists name, mu.
  repeat split; try done; Lqa.lra.
Qed.

Lemma averaged_scorer_result_witness :
  exists (name : string) (mu : Q),
    ({[ "exact_match"%string := (1 / 2 * 100)%Q ]} : gmap string Q) = {[ name := (mu * 100)%Q ]}
    /\ BaseMetric.mean [1%Q; 0%Q] = Ok mu
    /\ (0 <= mu * 100)%Q /\ (mu * 100 <= 100)%Q.
Proof.
  apply (averaged_scorer_result ExactMatch.calculate_metric
           {| documents := [doc_hit_first; doc_hit_second];
              predictions := [s "Paris"; s "Milan"; s "unpaired"] |}
           {[ "exact_match"%string := (1 / 2 * 100)%Q ]} [1%Q; 0%Q]).
  - by left.
  - vm_compute. reflexivity.
Defined.

(** ** The facade, continued *)

Lemma generation_metrics_inv (docs : list Document) (preds : list str) (m : gmap string Q) :
  Metrics.calculate_generation_metrics (Metrics.init docs) preds = Ok m ->
  exists v1 l1 v2 l2 v3 l3 v4 l4 v5 l5,
    ExactMatch.calculate_metric {| documents := docs; predictions := preds |}
    = Ok ({[ "exact_match"%string := v1 ]}, l1)
    /\ F1Score.calculate_metric {| documents := docs; predictions := preds |}
       = Ok ({[ "f1_score"%string := v2 ]}, l2)
    /\ PrecisionScore.calculate_metric {| documents := docs; predictions := preds |}
       = Ok ({[ "precision"%string := v3 ]}, l3)
    /\ RecallScore.calculate_metric {| documents := docs; predictions := preds |}
       = Ok ({[ "recall"%string := v4 ]}, l4)
    /\ ContainsMatch.calculate_metric {| documents := docs; predictions := preds |}
       = Ok ({[ "contains_match"%string := v5 ]}, l5)
    /\ m = {[ "contains_match"%string := v5 ]}
           ∪ ({[ "recall"%string := v4 ]}
              ∪ ({[ "precision"%string := v3 ]}
                 ∪ ({[ "f1_score"%string := v2 ]}
                    ∪ ({[ "exact_match"%string := v1 ]} ∪ ∅)))).
Proof.
  intros Hm.
  set (data := {| documents := docs; predictions := preds |}) in *.
  pose proof (exact_match_shape data) as H1.
  pose proof (f1_score_shape data) as H2.
  pose proof (precision_shape data) as H3.
  pose proof (recall_shape data) as H4.
  pose proof (contains_match_shape data) as H5.
  destruct (pairs_of data) as [|pg l] eqn:E.
  { rewrite generation_metrics_empty in Hm by done. done. }
  destruct H1 as (v1 & l1 & H1 & _), H2 as (v2 & l2 & H2 & _), H3 as (v3 & l3 & H3 & _),
           H4 as (v4 & l4 & H4 & _), H5 as (v5 & l5 & H5 & _).
  exists v1, l1, v2, l2, v3, l3, v4, l4, v5, l5.
  repeat (split; [done|]).
  unfold Metrics.calculate_generation_metrics, Metrics.metric_classes in Hm.
  simpl in Hm. fold data in Hm. rewrite H1 in Hm. simpl in Hm. rewrite H2 in Hm.
  simpl in Hm. rewrite H3 in Hm. simpl in Hm. rewrite H4 in Hm. simpl in Hm.
  rewrite H5 in Hm. simpl in Hm. unfold Metrics.dict_update in Hm. congruence.
Qed.

(** X13. Every value of the mapping returned by
    [calculate_generation_metrics] is a percentage between 0 and 100. *)
Theorem generation_metrics_percentages (docs : list Document) (preds : list str)
        (m : gmap string Q) (key : string) (v : Q) :
  Metrics.calculate_generation_metrics (Metrics.init docs) preds = Ok m ->
  m !! key = Some v ->
  (0 <= v)%Q /\ (v <= 100)%Q.
Proof.
  intros Hm Hv.
  destruct (generation_metrics_inv docs preds m Hm)
    as (v1 & l1 & v2 & l2 & v3 & l3 & v4 & l4 & v5 & l5 & H1 & H2 & H3 & H4 & H5 & ->).
  assert (forall calc name w l,
            scorer_bounded calc ->
            calc {| documents := docs; predictions := preds |} = Ok ({[ name := w ]}, l) ->
            (0 <= w)%Q /\ (w <= 100)%Q) as Hb.
  { intros calc name w l Hcalc Hr.
    destruct (Hcalc _ _ _ Hr) as (_ & _ & name' & mu & Heq & _ & [Hmu0 Hmu1]).
    assert (({[ name := w ]} : gmap string Q) !! name = Some w) as Hw
      by apply lookup_singleton_eq.
    rewrite Heq in Hw. apply lookup_singleton_Some in Hw as [_ <-]. split; Lqa.lra. }
  repeat (apply lookup_union_Some_raw in Hv as [Hv|[_ Hv]];
          [apply lookup_singleton_Some in Hv as [_ <-]|]).
  - by apply (Hb _ _ _ _ contains_match_bounded H5).
  - by apply (Hb _ _ _ _ recall_bounded H4).
  - by apply (Hb _ _ _ _ precision_bounded H3).
  - by apply (Hb _ _ _ _ f1_score_bounded H2).
  - by apply (Hb _ _ _ _ exact_match_bounded H1).
  - by rewrite lookup_empty in Hv.
Qed.

Lemma generation_metrics_percentages_witness :
  exists m,
    Metrics.calculate_generation_metrics (Metrics.init [doc_hit_first]) [s "Paris"] = Ok m
    /\ forall v, m !! "recall"%string = Some v -> (0 <= v)%Q /\ (v <= 100)%Q.
Proof.
  eexists. split; [vm_compute; reflexivity|]. intros v.
  apply (generation_metrics_percentages [doc_hit_first] [s "Paris"]).
  vm_compute. reflexivity.
Defined.

Lemma py_sum_mono (l l' : list Q) :
  Forall2 Qle l l' -> (py_sum l <= py_sum l')%Q.
Proof.
  intros Hl. unfold py_sum.
  assert (forall a a' : Q, (a <= a')%Q ->
            (fold_left Qplus l a <= fold_left Qplus l' a')%Q) as Hacc.
  { induction Hl as [|x x' l l' Hx Hl IH]; intros a a' Ha; [done|].
    simpl. apply IH. Lqa.lra. }
  apply Hacc. Lqa.lra.
Qed.

(** X14. In the mapping returned by [calculate_generation_metrics] the
    exact-match percentage never exceeds the contains-match percentage. *)
Theorem generation_metrics_em_le_contains (docs : list Document) (preds : list str)
        (m : gmap string Q) (em cm : Q) :
  Metrics.calculate_generation_metrics (Metrics.init docs) preds = Ok m ->
  m !! "exact_match"%string = Some em ->
  m !! "contains_match"%string = Some cm ->
  (em <= cm)%Q.
Proof.
  intros Hm Hem Hcm.
  destruct (generation_metrics_inv docs preds m Hm)
    as (v1 & l1 & v2 & l2 & v3 & l3 & v4 & l4 & v5 & l5 & H1 & _ & _ & _ & H5 & ->).
  rewrite lookup_union_l in Hcm by done. rewrite lookup_singleton_eq in Hcm.
  injection Hcm as <-.
  do 4 (rewrite lookup_union_r in Hem by done).
  rewrite lookup_union_l in Hem by done. rewrite lookup_singleton_eq in Hem.
  injection Hem as <-.
  unfold ExactMatch.calculate_metric in H1. unfold ContainsMatch.calculate_metric in H5.
  set (data := {| documents := docs; predictions := preds |}) in *.
  fold (pairs_of data) in H1, H5.
  destruct (pairs_of data) as [|pg pairs]; [done|].
  cbn [List.map] in H1, H5. rewrite mean_cons in H1, H5. cbn [bind] in H1, H5.
  apply (f_equal (fun r => match r with Ok (mm, _) => mm !! "exact_match"%string
                                   | Raise _ => None end)) in H1.
  apply (f_equal (fun r => match r with Ok (mm, _) => mm !! "contains_match"%string
                                   | Raise _ => None end)) in H5.
  rewrite !lookup_singleton_eq in H1, H5. injection H1 as <-. injection H5 as <-.
  unfold len. cbn [List.length]. rewrite !length_map.
  apply Qmult_le_compat_r; [|done]. apply Qmult_le_compat_r.
  - apply (py_sum_mono (_ :: _) (_ :: _)). constructor.
    + apply calculate_em_le_contains.
    + clear. induction pairs as [|pg pairs IH]; [constructor|]. simpl.
      constructor; [apply calculate_em_le_contains|done].
  - apply Qinv_le_0_compat. replace 0%Q with (inject_Z 0) by done.
    rewrite <- Zle_Qle. lia.
Qed.

Lemma generation_metrics_em_le_contains_witness :
  exists m em cm,
    Metrics.calculate_generation_metrics
      (Metrics.init [doc_hit_first; doc_hit_second]) [s "in Paris"; s "Rome"] = Ok m
    /\ m !! "exact_match"%string = Some em
    /\ m !! "contains_match"%string = Some cm
    /\ (em <= cm)%Q.
Proof.
  do 3 eexists. split; [vm_compute; reflexivity|].
  split; [vm_compute; reflexivity|]. split; [vm_compute; reflexivity|].
  eapply (generation_metrics_em_le_contains [doc_hit_first; doc_hit_second]
            [s "in Paris"; s "Rome"]); vm_compute; reflexivity.
Defined.

(** ** BLEU, continued: the n-gram counter *)

Lemma counter_get_fold_keys {I : Type} (F : I -> list str) (idxs : list I)
      (c : gmap (list str) Z) (g : list str) :
  counter_get (fold_left (fun c i => counter_incr (F i) c) idxs c) g
  = counter_get c g + len (List.filter (fun i => bool_decide (F i = g)) idxs).
Proof.
  revert c. induction idxs as [|i idxs IH]; intros c; simpl.
  - unfold len. simpl. lia.
  - rewrite IH, counter_get_incr. case_bool_decide; rewrite ?len_cons; lia.
Qed.

Lemma py_range_bounds (lo hi i : Z) : In i (py_range lo hi) -> lo <= i < hi.
Proof.
  unfold py_range. rewrite in_map_iff. intros (j & <- & Hj). apply in_seq in Hj. lia.
Qed.

Lemma filter_none {A : Type} (f : A -> bool) (l : list A) :
  (forall x, In x l -> f x = false) -> List.filter f l = [].
Proof.
  induction l as [|x l IH]; [done|]. intros Hf. simpl.
  rewrite (Hf x) by by left. apply IH. intros y Hy. apply Hf. by right.
Qed.

(** X15. [_get_ngrams] counts windows: an n-gram of one to [max_order]
    tokens is counted once for every position of the segment at which it
    occurs, and nothing else is counted (a tuple of another length, or one
    that occurs nowhere, has count zero). *)
Theorem get_ngrams_count (segment : list str) (max_order : Z) (g : list str) :
  counter_get (BLEUScore._get_ngrams segment max_order) g
  = if (1 <=? len g) && (len g <=? max_order) then window_count segment g else 0.
Proof.
  unfold BLEUScore._get_ngrams.
  assert (forall orders (c : gmap (list str) Z),
            NoDup orders -> Forall (fun o => 1 <= o) orders ->
            counter_get
              (fold_left
                 (fun ngram_counts order =>
                    fold_left (fun ngram_counts i =>
                                 counter_incr (slice segment i (i + order)) ngram_counts)
                              (py_range 0 (len segment - order + 1)) ngram_counts)
                 orders c) g
            = counter_get c g
              + if bool_decide (len g ∈ orders) then window_count segment g else 0) as Hgen.
  { induction orders as [|o orders IH]; intros c Hnd Hpos.
    - cbn [fold_left]. rewrite bool_decide_eq_false_2 by apply not_elem_of_nil. lia.
    - apply NoDup_cons in Hnd as [Ho Hnd]. apply Forall_cons in Hpos as [Ho1 Hpos].
      cbn [fold_left]. rewrite IH by done. rewrite counter_get_fold_keys.
      destruct (decide (len g = o)) as [<-|Hne].
      + rewrite (bool_decide_eq_false_2 (len g ∈ orders)) by done.
        rewrite bool_decide_eq_true_2 by by left. unfold window_count. lia.
      + rewrite filter_none.
        * destruct (decide (len g ∈ orders)) as [Hin|Hnin].
          -- rewrite !bool_decide_eq_true_2; [|by right|done].
             change (len (@nil Z)) with 0. lia.
          -- rewrite !bool_decide_eq_false_2; [|intros [?|?]%elem_of_cons; done|done].
             change (len (@nil Z)) with 0. lia.
        * intros i Hi. apply py_range_bounds in Hi. apply bool_decide_eq_false.
          intros E. apply Hne. rewrite <- E. apply len_slice; lia. }
  rewrite Hgen.
  - unfold counter_get at 1. rewrite lookup_empty. simpl.
    destruct (Z.leb_spec 1 (len g)), (Z.leb_spec (len g) max_order); simpl.
    + rewrite bool_decide_eq_true_2; [done|].
      apply list_elem_of_In. unfold py_range. apply in_map_iff.
      exists (Z.to_nat (len g - 1)). split; [lia|]. apply in_seq. lia.
    + rewrite bool_decide_eq_false_2; [done|].
      intros Hin%list_elem_of_In%py_range_bounds. lia.
    + rewrite bool_decide_eq_false_2; [done|].
      intros Hin%list_elem_of_In%py_range_bounds. lia.
    + rewrite bool_decide_eq_false_2; [done|].
      intros Hin%list_elem_of_In%py_range_bounds. lia.
  - unfold py_range. apply NoDup_fmap_2; [|apply NoDup_seq]. intros a b. lia.
  - apply Forall_forall. intros o Ho%list_elem_of_In%py_range_bounds. lia.
Qed.

Example get_ngrams_count_example :
  counter_get (BLEUScore._get_ngrams [s "a"; s "b"; s "a"; s "b"] 2) [s "a"; s "b"] = 2
  /\ counter_get (BLEUScore._get_ngrams [s "a"; s "b"; s "a"; s "b"] 2) [s "b"] = 2
  /\ counter_get (BLEUScore._get_ngrams [s "a"; s "b"; s "a"; s "b"] 2)
       [s "a"; s "b"; s "a"] = 0.
Proof. repeat split; vm_compute; reflexivity. Qed.

(** ** BLEU, continued: the corpus pass in general *)

Lemma count_len_delete (o : Z) (k : list str) (c : gmap (list str) Z) :
  count_len o c
  = count_len o (delete k c) + (if len k =? o then counter_get c k else 0).
Proof.
  unfold counter_get, count_len. destruct (c !! k) as [v|] eqn:E; simpl.
  - rewrite (map_fold_delete_L _ _ k v c); [|intros; repeat case_match; lia|done].
    destruct (len k =? o); lia.
  - rewrite delete_id by done. destruct (len k =? o); lia.
Qed.

Lemma count_len_keys (o : Z) (c : gmap (list str) Z) (ks : list (list str)) :
  NoDup ks -> (forall k, is_Some (c !! k) -> k ∈ ks) ->
  count_len o c
  = fold_right (fun k n => (if len k =? o then counter_get c k else 0) + n) 0 ks.
Proof.
  intros Hnd. revert c. induction Hnd as [|k ks Hk Hnd IH]; intros c Hcov.
  - assert (c = ∅) as ->.
    { apply map_eq. intros k. rewrite lookup_empty.
      destruct (c !! k) eqn:E; [|done].
      exfalso. eapply not_elem_of_nil, Hcov. by rewrite E. }
    apply count_len_empty.
  - simpl. rewrite (count_len_delete o k c), (IH (delete k c)).
    + rewrite Z.add_comm. f_equal.
      clear IH Hnd Hcov. induction ks as [|k' ks IH]; [done|]. simpl.
      rewrite IH by (intros ?; apply Hk; by right).
      f_equal. unfold counter_get. rewrite lookup_delete_ne; [done|].
      intros ->. apply Hk. by left.
    + intros k' [v Hv]. destruct (decide (k' = k)) as [->|Hne].
      * by rewrite lookup_delete_eq in Hv.
      * rewrite lookup_delete_ne in Hv by done.
        assert (k' ∈ k :: ks) as Hin by (apply Hcov; by rewrite Hv).
        apply elem_of_cons in Hin as [?|?]; done.
Qed.

(** Clipping never adds occurrences. *)
Lemma count_len_overlap (o n : Z) (a b : gmap (list str) Z) :
  ngrams_ok n a ->
  ngrams_ok n (counter_and a b)
  /\ 0 <= count_len o (counter_and a b) <= count_len o a.
Proof.
  intros Ha. split.
  - intros k v Hv. split; [|by apply counter_and_positive in Hv].
    rewrite lookup_counter_and in Hv. destruct (a !! k) as [cx|] eqn:E; [|done].
    by destruct (Ha k cx E).
  - set (ks := (map_to_list a).*1).
    assert (NoDup ks) as Hnd by apply NoDup_fst_map_to_list.
    assert (forall k, is_Some (a !! k) -> k ∈ ks) as Hcov.
    { intros k [v Hv]. apply list_elem_of_fmap. exists (k, v).
      split; [done|]. by apply elem_of_map_to_list. }
    rewrite (count_len_keys o a ks Hnd Hcov), (count_len_keys o _ ks Hnd).
    + clear Hnd Hcov. induction ks as [|k ks IH]; [done|]. simpl.
      assert (0 <= counter_get (counter_and a b) k <= counter_get a k) as Hk.
      { unfold counter_get. rewrite lookup_counter_and.
        destruct (a !! k) as [cx|] eqn:E; simpl; [|lia].
        destruct (Ha k cx E) as [_ Hcx]. unfold keep_positive, counter_get.
        destruct (Z.ltb_spec 0 (Z.min cx (default 0 (b !! k)))); simpl; lia. }
      destruct (len k =? o); lia.
    + intros k [v Hv]. apply Hcov. rewrite lookup_counter_and in Hv.
      destruct (a !! k); [by eexists|done].
Qed.

Lemma bumped_compose (w1 w2 : nat -> Z) (l l1 l2 : list Z) :
  bumped w1 l l1 -> bumped w2 l1 l2 -> bumped (fun i => w1 i + w2 i) l l2.
Proof.
  intros [Hlen1 H1] [Hlen2 H2]. split; [lia|]. intros i x Hx.
  rewrite (H2 i _ (H1 i x Hx)). f_equal. lia.
Qed.

Lemma bumped_refl (l : list Z) : bumped (fun _ => 0) l l.
Proof. split; [done|]. intros i x Hx. by rewrite Z.add_0_r. Qed.

Lemma corpus_step_raises (self : BLEUScore.t) (a : BLEUScore.acc) (t : list str) :
  BLEUScore.corpus_step self a [] t = Raise ValueError.
Proof. reflexivity. Qed.

Lemma corpus_step_general (self : BLEUScore.t) (a : BLEUScore.acc)
      (references : list (list str)) (t : list str) :
  1 <= BLEUScore.max_order self ->
  graded (BLEUScore.max_order self) a ->
  references <> [] ->
  exists a',
    BLEUScore.corpus_step self a references t = Ok a'
    /\ graded (BLEUScore.max_order self) a'
    /\ bumped (windows t) (BLEUScore.possible_matches_by_order a)
              (BLEUScore.possible_matches_by_order a').
Proof.
  intros Hn (Hlm & Hlp & Hgr) Href. unfold BLEUScore.corpus_step.
  destruct references as [|r rs]; [done|]. cbn [List.map py_min_Z bind].
  set (merged := fold_left _ (r :: rs) ∅).
  destruct (get_ngrams_counts t (BLEUScore.max_order self)) as [Hok Hcount].
  destruct (count_len_overlap 0 _ (BLEUScore._get_ngrams t (BLEUScore.max_order self))
              merged Hok) as [Hov _].
  destruct (add_matches_bumped
              (counter_and (BLEUScore._get_ngrams t (BLEUScore.max_order self)) merged)
              (BLEUScore.matches_by_order a)) as (mbo & -> & Hm).
  { by rewrite Hlm. }
  destruct (add_possible_bumped t (BLEUScore.max_order self)
              (BLEUScore.possible_matches_by_order a)) as (pmbo & -> & Hp).
  { lia. }
  cbn [bind]. eexists. split; [reflexivity|]. cbn. split; [|done].
  destruct Hm as [Hlen_m Hm], Hp as [Hlen_p Hp].
  unfold graded. cbn.
  split; [unfold len in *; lia|]. split; [unfold len in *; lia|].
  intros i m p Hmi Hpi.
  destruct (lookup_lt_is_Some_2 (BLEUScore.matches_by_order a) i) as [m0 Hm0].
  { apply lookup_lt_Some in Hmi. lia. }
  destruct (lookup_lt_is_Some_2 (BLEUScore.possible_matches_by_order a) i) as [p0 Hp0].
  { apply lookup_lt_Some in Hpi. lia. }
  rewrite (Hm i m0 Hm0) in Hmi. rewrite (Hp i p0 Hp0) in Hpi.
  injection Hmi as <-. injection Hpi as <-.
  pose proof (Hgr i m0 p0 Hm0 Hp0).
  destruct (count_len_overlap (Z.of_nat i + 1) _
              (BLEUScore._get_ngrams t (BLEUScore.max_order self)) merged Hok) as [_ Hle].
  rewrite Hcount in Hle. apply lookup_lt_Some in Hm0. unfold len in Hlm.
  destruct (Z.leb_spec 1 (Z.of_nat i + 1)), (Z.leb_spec (Z.of_nat i + 1)
                                                (BLEUScore.max_order self));
    simpl in Hle; try lia.
  unfold windows. lia.
Qed.

Lemma corpus_loop_general (self : BLEUScore.t) (a : BLEUScore.acc)
      (pairs : list (list (list str) * list str)) :
  1 <= BLEUScore.max_order self ->
  graded (BLEUScore.max_order self) a ->
  Forall (fun p => fst p <> []) pairs ->
  exists a',
    BLEUScore.corpus_loop self a pairs = Ok a'
    /\ graded (BLEUScore.max_order self) a'
    /\ bumped (total_windows (List.map snd pairs))
              (BLEUScore.possible_matches_by_order a)
              (BLEUScore.possible_matches_by_order a').
Proof.
  intros Hn Hgr Hall. revert a Hgr.
  induction Hall as [|[references t] pairs Hp Hall IH]; intros a Hgr.
  - exists a. split; [done|]. split; [done|]. apply bumped_refl.
  - simpl in Hp. destruct (corpus_step_general self a references t Hn Hgr Hp)
      as (a1 & Hstep & Hgr1 & Hb1).
    destruct (IH a1 Hgr1) as (a' & Hloop & Hgr' & Hb').
    exists a'. cbn [BLEUScore.corpus_loop]. rewrite Hstep. cbn [bind].
    split; [done|]. split; [done|].
    eapply bumped_ext; [|exact (bumped_compose _ _ _ _ _ Hb1 Hb')]. done.
Qed.

Lemma corpus_loop_raises (self : BLEUScore.t) (a : BLEUScore.acc)
      (pairs : list (list (list str) * list str)) :
  1 <= BLEUScore.max_order self ->
  graded (BLEUScore.max_order self) a ->
  Exists (fun p => fst p = []) pairs ->
  BLEUScore.corpus_loop self a pairs = Raise ValueError.
Proof.
  intros Hn Hgr Hex. revert a Hgr.
  induction pairs as [|[references t] pairs IH]; intros a Hgr.
  - by apply Exists_nil in Hex.
  - cbn [BLEUScore.corpus_loop]. destruct references as [|r rs]; [done|].
    destruct (corpus_step_general self a (r :: rs) t Hn Hgr ltac:(done))
      as (a1 & -> & Hgr1 & _).
    cbn [bind]. apply IH; [|done].
    apply Exists_cons in Hex as [Hex|Hex]; [done|done].
Qed.

(** ** BLEU, continued: precisions and score in general *)

Lemma precision_of_ok (smooth : bool) (m p : Z) :
  0 <= m <= p ->
  (if smooth then true_div (inject_Z m + 1)%Q (inject_Z p + 1)%Q
   else if 0 <? p then true_div (inject_Z m) (inject_Z p) else Ok 0%Q)
  = Ok (precision_of smooth m p).
Proof.
  intros Hmp. unfold precision_of. destruct smooth.
  - apply true_div_ok. intros E.
    assert (0 <= inject_Z p)%Q by (replace 0%Q with (inject_Z 0) by done;
                                    rewrite <- Zle_Qle; lia).
    Lqa.lra.
  - destruct (Z.ltb_spec 0 p); [|done]. apply true_div_ok, inject_Z_nonzero. lia.
Qed.

Lemma precision_of_unit (smooth : bool) (m p : Z) :
  0 <= m <= p ->
  unit_score (precision_of smooth m p)
  /\ (smooth = true -> (0 < precision_of smooth m p)%Q)
  /\ (smooth = false -> p = 0 -> precision_of smooth m p = 0%Q).
Proof.
  intros Hmp.
  assert (0 <= inject_Z m)%Q as Hm0
    by (replace 0%Q with (inject_Z 0) by done; rewrite <- Zle_Qle; lia).
  assert (inject_Z m <= inject_Z p)%Q as Hmp' by (rewrite <- Zle_Qle; lia).
  unfold precision_of. destruct smooth.
  - assert (0 < inject_Z p + 1)%Q as Hd by Lqa.lra.
    split; [split|split; [|done]].
    + apply Qle_shift_div_l; [done|]. Lqa.lra.
    + apply Qle_shift_div_r; [done|]. Lqa.lra.
    + intros _. apply Qlt_shift_div_l; [done|]. Lqa.lra.
  - destruct (Z.ltb_spec 0 p) as [Hp|Hp].
    + assert (0 < inject_Z p)%Q as Hd
        by (replace 0%Q with (inject_Z 0) by done; rewrite <- Zlt_Qlt; lia).
      split; [split|split; [done|lia]].
      * apply Qle_shift_div_l; [done|]. Lqa.lra.
      * apply Qle_shift_div_r; [done|]. Lqa.lra.
    + split; [by split|]. by split.
Qed.

Lemma fill_precisions_general (self : BLEUScore.t) (a : BLEUScore.acc) :
  1 <= BLEUScore.max_order self ->
  graded (BLEUScore.max_order self) a ->
  exists ps,
    BLEUScore.fill_precisions self a = Ok ps
    /\ len ps = BLEUScore.max_order self
    /\ forall i m p,
         BLEUScore.matches_by_order a !! i = Some m ->
         BLEUScore.possible_matches_by_order a !! i = Some p ->
         ps !! i = Some (precision_of (BLEUScore.smooth self) m p).
Proof.
  intros Hn (Hlm & Hlp & Hgr). unfold BLEUScore.fill_precisions, py_range.
  rewrite Z.sub_0_r.
  set (n := Z.to_nat (BLEUScore.max_order self)).
  assert (List.length (BLEUScore.matches_by_order a) = n) as Hlm' by (unfold len in *; lia).
  assert (List.length (BLEUScore.possible_matches_by_order a) = n) as Hlp'
    by (unfold len in *; lia).
  assert (forall k, (k <= n)%nat ->
            exists ps,
              fold_left
                (fun st i =>
                   let* precisions := st in
                   let* m := list_get (BLEUScore.matches_by_order a) i in
                   let* p := list_get (BLEUScore.possible_matches_by_order a) i in
                   let* v := if BLEUScore.smooth self
                             then true_div (inject_Z m + 1)%Q (inject_Z p + 1)%Q
                             else if 0 <? p then true_div (inject_Z m) (inject_Z p)
                                  else Ok 0%Q in
                   list_set precisions i v)
                (List.map (fun i => 0 + Z.of_nat i) (seq 0 k)) (Ok (repeat 0%Q n)) = Ok ps
              /\ List.length ps = n
              /\ forall i m p,
                   (i < k)%nat ->
                   BLEUScore.matches_by_order a !! i = Some m ->
                   BLEUScore.possible_matches_by_order a !! i = Some p ->
                   ps !! i = Some (precision_of (BLEUScore.smooth self) m p)) as Hgen.
  { induction k as [|k IH]; intros Hk.
    - exists (repeat 0%Q n). split; [done|]. split; [by rewrite repeat_length|]. lia.
    - destruct IH as (ps & Hfold & Hps & Hval); [lia|].
      rewrite seq_S, map_app, fold_left_app, Hfold. simpl. rewrite !Z.add_0_l.
      destruct (lookup_lt_is_Some_2 (BLEUScore.matches_by_order a) k ltac:(lia)) as [m Hm].
      destruct (lookup_lt_is_Some_2 (BLEUScore.possible_matches_by_order a) k ltac:(lia))
        as [p Hp].
      rewrite (list_get_pos _ k m Hm), (list_get_pos _ k p Hp). cbn [bind].
      rewrite (precision_of_ok _ m p (Hgr k m p Hm Hp)). cbn [bind].
      rewrite list_set_pos by lia.
      eexists. split; [reflexivity|]. split; [by rewrite length_insert|].
      intros i m' p' Hi Hm' Hp'. destruct (decide (i = k)) as [->|Hne].
      + rewrite list_lookup_insert_eq by lia. congruence.
      + rewrite list_lookup_insert_ne by done. apply Hval; [lia|done|done]. }
  destruct (Hgen n) as (ps & Hfold & Hps & Hval); [lia|].
  exists ps. split; [exact Hfold|]. split; [unfold len; lia|].
  intros i m p Hm Hp. apply Hval; [|done|done]. apply lookup_lt_Some in Hm. lia.
Qed.

Lemma py_min_Q_spec (l : list Q) :
  l <> [] ->
  exists m, py_min_Q l = Ok m /\ In m l /\ Forall (fun x => (m <= x)%Q) l.
Proof.
  destruct l as [|x l]; [done|]. intros _. simpl. eexists. split; [reflexivity|].
  assert (forall (l : list Q) (x : Q),
            let m := fold_left (fun m y => if Qlt_b y m then y else m) l x in
            (m = x \/ In m l) /\ (m <= x)%Q /\ Forall (fun y => (m <= y)%Q) l) as Hgen.
  { clear. induction l as [|y l IH]; intros x; simpl.
    - split; [by left|]. split; [Lqa.lra|constructor].
    - destruct (Qlt_b y x) eqn:E.
      + assert (y < x)%Q as Hlt.
        { unfold Qlt_b in E. apply negb_true_iff in E.
          apply Qnot_le_lt. intros Hle. apply Qle_bool_iff in Hle. congruence. }
        destruct (IH y) as (H1 & H2 & H3).
        split; [destruct H1 as [->|?]; auto|]. split; [Lqa.lra|]. by constructor.
      + assert (x <= y)%Q as Hle.
        { unfold Qlt_b in E. apply negb_false_iff in E. by apply Qle_bool_iff. }
        destruct (IH x) as (H1 & H2 & H3).
        split; [destruct H1; auto|]. split; [done|]. constructor; [Lqa.lra|done]. }
  destruct (Hgen l x) as (H1 & H2 & H3).
  split; [destruct H1 as [->|?]; [by left|by right]|]. by constructor.
Qed.

Lemma sum_log_nonpos (ps : list Q) :
  Forall (fun p => (0 < p)%Q /\ (p <= 1)%Q) ps -> (BLEUScore.sum_log ps <= 0)%R.
Proof.
  intros Hps. unfold BLEUScore.sum_log.
  assert (forall acc : R, (fold_left (fun acc p => acc + ln (Q2R p)) ps acc <= acc)%R)
    as Hacc; [|apply Hacc].
  induction Hps as [|p ps [Hp0 Hp1] Hps IH]; intros acc; simpl; [lra|].
  eapply Rle_trans; [apply IH|].
  apply Qlt_Rlt in Hp0. apply Qle_Rle in Hp1.
  replace (Q2R 0) with 0%R in Hp0 by (unfold Q2R; simpl; lra).
  replace (Q2R 1) with 1%R in Hp1 by (unfold Q2R; simpl; lra).
  assert (ln (Q2R p) <= 0)%R; [|lra].
  rewrite <- ln_1. destruct Hp1 as [Hlt | ->]; [|lra].
  left. by apply ln_increasing.
Qed.

Lemma bleu_of_range (n : Z) (ps : list Q) :
  1 <= n -> ps <> [] -> Forall unit_score ps ->
  exists v,
    bleu_of n ps = Ok v
    /\ (0 <= v)%R /\ (v <= 1)%R
    /\ (Forall (fun p => (0 < p)%Q) ps -> (0 < v)%R)
    /\ (Exists (fun p => (p <= 0)%Q) ps -> v = 0%R).
Proof.
  intros Hn Hne Hunit. unfold bleu_of.
  destruct (py_min_Q_spec ps Hne) as (m & -> & Hin & Hmin). cbn [bind].
  unfold Qlt_b. destruct (Qle_bool m 0) eqn:E; simpl.
  - apply Qle_bool_iff in E. exists 0%R. split; [done|]. split; [lra|]. split; [lra|].
    split; [|done]. intros Hpos. rewrite Forall_forall in Hpos.
    apply list_elem_of_In, Hpos in Hin. Lqa.lra.
  - assert (0 < m)%Q as Hm.
    { apply Qnot_le_lt. intros Hle. apply Qle_bool_iff in Hle. congruence. }
    assert (Forall (fun p => (0 < p)%Q /\ (p <= 1)%Q) ps) as Hall.
    { rewrite Forall_forall in Hmin, Hunit. apply Forall_forall. intros p Hp.
      destruct (Hunit p Hp). specialize (Hmin p Hp). simpl in Hmin. split; [Lqa.lra|done]. }
    pose proof (sum_log_nonpos ps Hall) as Hsum.
    eexists. split; [reflexivity|].
    assert (0 < / IZR n)%R as Hinv.
    { apply Rinv_0_lt_compat. apply IZR_lt. lia. }
    assert (BLEUScore.sum_log ps / IZR n <= 0)%R as Hx.
    { unfold Rdiv. nra. }
    split; [left; apply exp_pos|]. split.
    + rewrite <- exp_0. destruct Hx as [Hx | ->]; [left; by apply exp_increasing|lra].
    + split; [intros _; apply exp_pos|].
      intros Hex. exfalso. apply Exists_exists in Hex as (p & Hp & Hp0).
      rewrite Forall_forall in Hall. destruct (Hall p Hp). Lqa.lra.
Qed.

Lemma lookup_repeat {A : Type} (x : A) (n i : nat) :
  (i < n)%nat -> repeat x n !! i = Some x.
Proof.
  revert i. induction n as [|n IH]; intros i Hi; [lia|].
  destruct i as [|i]; [done|]. simpl. apply IH. lia.
Qed.

Lemma initial_acc_graded (n : Z) : 0 <= n -> graded n (initial_acc n).
Proof.
  intros Hn. unfold graded, initial_acc. cbn.
  unfold len. rewrite repeat_length. split; [lia|]. split; [lia|].
  intros i m p Hm Hp. apply list_elem_of_lookup_2, list_elem_of_In, repeat_spec in Hm.
  apply list_elem_of_lookup_2, list_elem_of_In, repeat_spec in Hp. lia.
Qed.

Lemma initial_acc_graded_pos (n : Z) : 1 <= n -> graded n (initial_acc n).
Proof. intros Hn. apply initial_acc_graded. lia. Qed.

(** With at least one order and no instance without references, the score
    is computed from one precision per order. *)
Lemma compute_bleu_general (self : BLEUScore.t)
      (reference_corpus : list (list (list str))) (translation_corpus : list (list str)) :
  1 <= BLEUScore.max_order self ->
  Forall (fun p => fst p <> []) (combine reference_corpus translation_corpus) ->
  exists ps,
    BLEUScore.compute_bleu self reference_corpus translation_corpus
    = bleu_of (BLEUScore.max_order self) ps
    /\ len ps = BLEUScore.max_order self
    /\ forall i q,
         ps !! i = Some q ->
         exists m,
           0 <= m <= total_windows
                       (List.map snd (combine reference_corpus translation_corpus)) i
           /\ q = precision_of (BLEUScore.smooth self) m
                    (total_windows
                       (List.map snd (combine reference_corpus translation_corpus)) i).
Proof.
  intros Hn Hall. unfold BLEUScore.compute_bleu. fold (initial_acc (BLEUScore.max_order self)).
  destruct (corpus_loop_general self (initial_acc (BLEUScore.max_order self)) _ Hn
              (initial_acc_graded_pos _ Hn) Hall) as (a & -> & Hgr & Hlen & Hbump).
  cbn [bind].
  destruct (fill_precisions_general self a Hn Hgr) as (ps & -> & Hps & Hval).
  cbn [bind]. exists ps. split; [done|]. split; [done|].
  intros i q Hq. destruct Hgr as (Hlm & Hlp & Hgr).
  assert (i < List.length ps)%nat as Hi by by apply lookup_lt_Some in Hq.
  destruct (lookup_lt_is_Some_2 (BLEUScore.matches_by_order a) i) as [m Hm].
  { unfold len in *. lia. }
  destruct (lookup_lt_is_Some_2 (BLEUScore.possible_matches_by_order a) i) as [p Hp].
  { unfold len in *. lia. }
  rewrite (Hval i m p Hm Hp) in Hq. injection Hq as <-.
  assert (p = total_windows (List.map snd (combine reference_corpus translation_corpus)) i)
    as <-.
  { assert (BLEUScore.possible_matches_by_order (initial_acc (BLEUScore.max_order self))
            !! i = Some 0) as H0.
    { cbn. apply lookup_repeat. unfold len in *. lia. }
    rewrite (Hbump i 0 H0) in Hp. injection Hp as <-. lia. }
  exists m. split; [by apply (Hgr i)|done].
Qed.

Lemma precisions_unit (smooth : bool) (ps : list Q) (w : nat -> Z) :
  (forall i q, ps !! i = Some q -> exists m, 0 <= m <= w i /\ q = precision_of smooth m (w i)) ->
  Forall unit_score ps /\ (smooth = true -> Forall (fun p => (0 < p)%Q) ps).
Proof.
  intros Hps. split; [|intros Hs]; apply Forall_lookup; intros i q Hq;
    destruct (Hps i q Hq) as (m & Hm & ->);
    destruct (precision_of_unit smooth m (w i) Hm) as (Hu & Hpos & _); auto.
Qed.

(** X16. With [max_order >= 1], [compute_bleu] fails only on an instance
    without references: it raises [ValueError] when some zipped instance has
    an empty reference list, and returns a score otherwise. *)
Theorem compute_bleu_errors (self : BLEUScore.t)
        (reference_corpus : list (list (list str))) (translation_corpus : list (list str)) :
  1 <= BLEUScore.max_order self ->
  (Exists (fun p => fst p = []) (combine reference_corpus translation_corpus) ->
   BLEUScore.compute_bleu self reference_corpus translation_corpus = Raise ValueError)
  /\ (Forall (fun p => fst p <> []) (combine reference_corpus translation_corpus) ->
      exists v, BLEUScore.compute_bleu self reference_corpus translation_corpus = Ok v).
Proof.
  intros Hn. split.
  - intros Hex. unfold BLEUScore.compute_bleu.
    fold (initial_acc (BLEUScore.max_order self)).
    by rewrite (corpus_loop_raises self _ _ Hn (initial_acc_graded_pos _ Hn) Hex).
  - intros Hall.
    destruct (compute_bleu_general self _ _ Hn Hall) as (ps & -> & Hlen & Hps).
    destruct (precisions_unit _ _ _ Hps) as [Hunit _].
    destruct (bleu_of_range (BLEUScore.max_order self) ps Hn) as (v & Hv & _); [|done|].
    + intros ->. unfold len in Hlen. simpl in Hlen. lia.
    + by exists v.
Qed.

Lemma compute_bleu_errors_witness :
  BLEUScore.compute_bleu bleu_default [[[s "a"]]; []] [[s "a"]; [s "b"]] = Raise ValueError
  /\ exists v, BLEUScore.compute_bleu bleu_default [[[s "a"]]; [[s "c"]]] [[s "a"]; [s "b"]]
               = Ok v.
Proof.
  destruct (compute_bleu_errors bleu_default [[[s "a"]]; []] [[s "a"]; [s "b"]])
    as [Hraise _]; [simpl; lia|].
  destruct (compute_bleu_errors bleu_default [[[s "a"]]; [[s "c"]]] [[s "a"]; [s "b"]])
    as [_ Hok]; [simpl; lia|].
  split.
  - apply Hraise. right. by left.
  - apply Hok. by repeat constructor.
Defined.

(** X17. With [max_order >= 1], a score returned by [compute_bleu] lies
    between 0 and 1, and is positive when smoothing is on. *)
Theorem compute_bleu_range (self : BLEUScore.t)
        (reference_corpus : list (list (list str))) (translation_corpus : list (list str))
        (v : R) :
  1 <= BLEUScore.max_order self ->
  BLEUScore.compute_bleu self reference_corpus translation_corpus = Ok v ->
  (0 <= v)%R /\ (v <= 1)%R /\ (BLEUScore.smooth self = true -> (0 < v)%R).
Proof.
  intros Hn Hv.
  destruct (decide (Forall (fun p : list (list str) * list str => fst p <> [])
                           (combine reference_corpus translation_corpus))) as [Hall|Hex].
  - destruct (compute_bleu_general self _ _ Hn Hall) as (ps & Heq & Hlen & Hps).
    destruct (precisions_unit _ _ _ Hps) as [Hunit Hpos].
    destruct (bleu_of_range (BLEUScore.max_order self) ps Hn) as (v' & Hv' & H0 & H1 & Hp & _);
      [|done|].
    + intros ->. unfold len in Hlen. simpl in Hlen. lia.
    + rewrite Heq, Hv' in Hv. injection Hv as <-. auto.
  - exfalso. unfold BLEUScore.compute_bleu in Hv.
    fold (initial_acc (BLEUScore.max_order self)) in Hv.
    rewrite (corpus_loop_raises self _ _ Hn (initial_acc_graded_pos _ Hn)) in Hv; [done|].
    apply not_Forall_Exists in Hex; [|apply _].
    eapply Exists_impl; [exact Hex|]. intros p Hp. simpl in Hp.
    destruct (fst p); [done|]. exfalso. by apply Hp.
Qed.

Lemma compute_bleu_range_witness :
  exists v,
    BLEUScore.compute_bleu bleu_smoothed [[[s "a"; s "c"]]] [[s "a"; s "b"]] = Ok v
    /\ (0 < v)%R /\ (v <= 1)%R.
Proof.
  eexists. split; [vm_compute; reflexivity|].
  match goal with
  | |- (0 < ?v)%R /\ _ =>
      destruct (compute_bleu_range bleu_smoothed [[[s "a"; s "c"]]] [[s "a"; s "b"]] v)
        as (H0 & H1 & Hpos)
  end.
  - simpl. lia.
  - vm_compute. reflexivity.
  - split; [apply Hpos; reflexivity|exact H1].
Defined.

(** X18. On an empty corpus (no zipped instance) and [max_order >= 1],
    [compute_bleu] does not fail: it returns 0.0 without smoothing and 1.0
    with smoothing. *)
Theorem compute_bleu_empty_corpus (self : BLEUScore.t)
        (reference_corpus : list (list (list str))) (translation_corpus : list (list str)) :
  1 <= BLEUScore.max_order self ->
  combine reference_corpus translation_corpus = [] ->
  BLEUScore.compute_bleu self reference_corpus translation_corpus
  = Ok (if BLEUScore.smooth self then 1%R else 0%R).
Proof.
  intros Hn Hempty.
  destruct (compute_bleu_general self reference_corpus translation_corpus Hn)
    as (ps & -> & Hlen & Hps).
  { rewrite Hempty. constructor. }
  rewrite Hempty in Hps. simpl in Hps.
  assert (ps <> []) as Hne.
  { intros ->. unfold len in Hlen. simpl in Hlen. lia. }
  assert (Forall (fun q => q = precision_of (BLEUScore.smooth self) 0 0) ps) as Hall.
  { apply Forall_lookup. intros i q Hq. destruct (Hps i q Hq) as (m & Hm & ->).
    by replace m with 0 by lia. }
  unfold bleu_of. destruct (BLEUScore.smooth self).
  - assert (Forall (fun p => (p == 1)%Q) ps) as Hones.
    { eapply Forall_impl; [exact Hall|]. by intros q ->. }
    destruct (py_min_Q_elem ps _ Hne Hones) as (m & -> & Hm). cbn [bind].
    assert (Qlt_b 0 m = true) as ->.
    { unfold Qlt_b. apply negb_true_iff. destruct (Qle_bool m 0) eqn:E; [|done].
      apply Qle_bool_iff in E. rewrite Hm in E. unfold Qle in E. simpl in E. lia. }
    f_equal. rewrite (sum_log_ones ps Hones).
    unfold Rdiv. rewrite Rmult_0_l. apply exp_0.
  - destruct (py_min_Q_elem ps _ Hne Hall) as (m & -> & ->). done.
Qed.

Lemma compute_bleu_empty_corpus_witness :
  BLEUScore.compute_bleu bleu_default [] [[s "a"]] = Ok 0%R.
Proof.
  apply (compute_bleu_empty_corpus bleu_default [] [[s "a"]]); [simpl; lia|reflexivity].
Defined.

(** X19. Without smoothing, when no instance is without references and
    every translation has fewer than [max_order] tokens, the score is 0.0:
    the highest order has no possible match. *)
Theorem compute_bleu_short_translations (self : BLEUScore.t)
        (reference_corpus : list (list (list str))) (translation_corpus : list (list str)) :
  BLEUScore.smooth self = false ->
  1 <= BLEUScore.max_order self ->
  Forall (fun p => fst p <> []) (combine reference_corpus translation_corpus) ->
  Forall (fun t => len t < BLEUScore.max_order self) translation_corpus ->
  BLEUScore.compute_bleu self reference_corpus translation_corpus = Ok 0%R.
Proof.
  intros Hsmooth Hn Hrefs Hshort.
  destruct (compute_bleu_general self _ _ Hn Hrefs) as (ps & -> & Hlen & Hps).
  destruct (precisions_unit _ _ _ Hps) as [Hunit _].
  destruct (bleu_of_range (BLEUScore.max_order self) ps Hn) as (v & -> & _ & _ & _ & Hzero);
    [|done|].
  { intros ->. unfold len in Hlen. simpl in Hlen. lia. }
  f_equal. apply Hzero.
  set (last := Z.to_nat (BLEUScore.max_order self - 1)).
  destruct (lookup_lt_is_Some_2 ps last) as [q Hq].
  { unfold len in Hlen. lia. }
  apply Exists_exists. exists q. split; [by eapply list_elem_of_lookup_2|].
  destruct (Hps last q Hq) as (m & Hm & ->).
  assert (total_windows (List.map snd (combine reference_corpus translation_corpus)) last = 0)
    as Htw.
  { assert (forall ts, Forall (fun t => len t < BLEUScore.max_order self) ts ->
                       total_windows ts last = 0) as Hgen.
    { induction 1 as [|t ts Ht Hts IH]; [done|]. simpl. rewrite IH.
      unfold windows. lia. }
    apply Hgen. apply Forall_forall. intros t Ht.
    apply list_elem_of_In, in_map_iff in Ht as ([r t'] & <- & Hin).
    apply in_combine_r in Hin. rewrite Forall_forall in Hshort.
    apply Hshort. by apply list_elem_of_In. }
  rewrite Htw in *. destruct (precision_of_unit (BLEUScore.smooth self) m 0 Hm)
    as (_ & _ & Hz). rewrite (Hz Hsmooth eq_refl). done.
Qed.

Lemma compute_bleu_short_translations_witness :
  BLEUScore.compute_bleu bleu_default [[[s "a"; s "b"]]; [[s "c"]]]
    [[s "a"; s "b"; s "c"]; [s "c"; s "d"]] = Ok 0%R.
Proof.
  apply (compute_bleu_short_translations bleu_default).
  - reflexivity.
  - simpl. lia.
  - by repeat constructor.
  - repeat constructor; vm_compute; reflexivity.
Defined.

(** X20. With smoothing and [max_order >= 1], a corpus in which every
    translation is its own single reference scores exactly 1.0, whatever the
    lengths of the translations (also for an empty corpus). *)
Theorem bleu_self_consistency_smooth (self : BLEUScore.t) (translations : list (list str)) :
  BLEUScore.smooth self = true ->
  1 <= BLEUScore.max_order self ->
  BLEUScore.compute_bleu self (self_references translations) translations = Ok 1%R.
Proof.
  intros Hsmooth Hn. unfold BLEUScore.compute_bleu.
  fold (initial_acc (BLEUScore.max_order self)).
  assert (balanced (BLEUScore.max_order self) (initial_acc (BLEUScore.max_order self)))
    as Hbal0.
  { split; [done|]. split.
    - cbn. unfold len. rewrite repeat_length. lia.
    - cbn. apply Forall_forall. intros x Hx.
      apply list_elem_of_In, repeat_spec in Hx. lia. }
  destruct (corpus_loop_self self translations _ Hn Hbal0) as (a & -> & Hbal & _).
  cbn [bind]. destruct Hbal as (Heq & Hlen & Hnonneg).
  assert (graded (BLEUScore.max_order self) a) as Hgr.
  { split; [done|]. split; [by rewrite <- Heq|]. intros i m p Hm Hp.
    rewrite <- Heq in Hp. assert (p = m) as -> by congruence.
    rewrite Forall_lookup in Hnonneg. specialize (Hnonneg i m Hm). lia. }
  destruct (fill_precisions_general self a Hn Hgr) as (ps & -> & Hps & Hval).
  cbn [bind].
  assert (ps <> []) as Hne.
  { intros ->. unfold len in Hps. simpl in Hps. lia. }
  assert (Forall (fun p => (p == 1)%Q) ps) as Hones.
  { apply Forall_lookup. intros i q Hq.
    destruct (lookup_lt_is_Some_2 (BLEUScore.matches_by_order a) i) as [m Hm].
    { apply lookup_lt_Some in Hq. unfold len in *. lia. }
    rewrite (Hval i m m Hm) in Hq by by rewrite <- Heq.
    injection Hq as <-. rewrite Hsmooth. unfold precision_of.
    apply Qmult_inv_r. rewrite Forall_lookup in Hnonneg. specialize (Hnonneg i m Hm).
    intros E.
    assert (0 <= inject_Z m)%Q
      by (replace 0%Q with (inject_Z 0) by done; rewrite <- Zle_Qle; lia).
    Lqa.lra. }
  destruct (py_min_Q_elem ps _ Hne Hones) as (m & -> & Hm). cbn [bind].
  assert (Qlt_b 0 m = true) as ->.
  { unfold Qlt_b. apply negb_true_iff. destruct (Qle_bool m 0) eqn:E; [|done].
    apply Qle_bool_iff in E. rewrite Hm in E. unfold Qle in E. simpl in E. lia. }
  f_equal. rewrite (sum_log_ones ps Hones).
  unfold Rdiv. rewrite Rmult_0_l. apply exp_0.
Qed.

Lemma bleu_self_consistency_smooth_witness :
  BLEUScore.compute_bleu bleu_smoothed (self_references [[s "a"]]) [[s "a"]] = Ok 1%R.
Proof.
  apply (bleu_self_consistency_smooth bleu_smoothed [[s "a"]]); [reflexivity|simpl; lia].
Defined.
